(** * jitsuclient: the buffering, dispatch and retry engine of [client.go]

    A shallow embedding of [client.go] (package [client]) and proofs about
    its flush, send and retry paths.

    The Go code runs against three collaborators that live outside
    [client.go]: the [Store] interface (and the [StoreEvent] struct), the
    resty HTTP client, and the wall clock.  The [Store] is embedded as a
    type class, the way the Go code uses it through an interface; the HTTP
    client and the clock are an environment carried in the machine state. *)

From Stdlib Require Import ZArith.
From Stdlib.Strings Require Import Byte.
From stdpp Require Import base option list gmap strings.

Local Open Scope Z_scope.

(** ** Go's [int] (64 bits, two's complement) *)

Definition int_min : Z := - 2 ^ 63.
Definition int_max : Z := 2 ^ 63 - 1.

(** The value an [int] holds after an arithmetic result [z] is stored. *)
Definition wrap (z : Z) : Z := (z + 2 ^ 63) mod 2 ^ 64 - 2 ^ 63.

Definition bytes := list byte.

(** [bytes.Join(s, sep)] *)
Fixpoint bytes_Join (s : list bytes) (sep : bytes) : bytes :=
  match s with
  | [] => []
  | [b] => b
  | b :: rest => b ++ sep ++ bytes_Join rest sep
  end.

(** The one-byte separator ["\n"]. *)
Definition newline : bytes := [x0a].

(** ** Data model *)

(** Values of Go's [error] interface that the code builds or passes on. *)
Inductive error : Type :=
| Err (msg : string)
    (* an error produced by a collaborator (transport, store) *)
| ErrStatusCode (code : Z)
    (* fmt.Errorf("send failed with status code %d", code) *)
| ErrUpdatingEvent (cause : error).
    (* fmt.Errorf("error updating event: %w", err) *)

Module event.
(** Modelled from the spec: package [event] is not in [client.go].
    [event.Event] is the payload handed over by a producer, an opaque
    serialized byte sequence; all the client sees of its schema and
    validation rules is the verdict of [Validate()]. *)
Record Event : Type := { Data : bytes; Validate : bool }.
End event.

(** Modelled from the spec: the struct [StoreEvent] is declared outside
    [client.go].  It wraps an event with its delivery bookkeeping; the fields
    are the ones [client.go] reads and writes ([Event], [Attempted],
    [Attempts], [LastAttempt]) and the identity the store needs for [Update]
    and [Remove].  [Attempts] is compared with [MaxRetries], an [int]. *)
Record StoreEvent : Type := {
  ID : N;
  Event : bytes;
  Attempted : bool;
  Attempts : Z;
  LastAttempt : Z
}.

(** Modelled from the spec: the struct [Options] is declared outside
    [client.go].  These are the options the code below reads, with the
    types of the configuration surface ([int] and [bool]); [CollectorURL]
    and [FlushInterval] only configure the HTTP client and the ticker. *)
Record Options : Type := {
  QueueBuffer : Z;
  FlushCount : Z;
  Bulk : bool;
  Strict : bool;
  MaxRetries : Z;
  Debug : bool
}.

(** ** The [Store] interface *)

(** Modelled from the spec: the interface [Store] is declared outside
    [client.go]; these are the five methods the client calls, with the
    results it uses.  [Set], [Update] and [Remove] change the store and
    report an error or [nil]; [Count] and [GetAll] are queries.  ([Set] is
    spelled [Set_]: [Set] is a sort.)  [GetAll] returns a snapshot: a change
    the client makes to an event of it reaches the store only through
    [Update], which is why the retry policy has to persist the event. *)
Class Store (S : Type) : Type := {
  Set_ : event.Event → S → option error * S;
  Update : StoreEvent → S → option error * S;
  Remove : StoreEvent → S → option error * S;
  Count : S → Z;
  GetAll : S → list StoreEvent * option error
}.

(** The entry a successful [Set] creates under identity [k]. *)
Definition admitted (k : N) (ev : event.Event) : StoreEvent :=
  {| ID := k; Event := event.Data ev; Attempted := false; Attempts := 0;
     LastAttempt := 0 |}.

(** Modelled from the spec: the implementations of [Store] are not in
    [client.go].  This is the contract that the specification gives for any
    backing implementation (sections 3, 6 and 7): the store holds a mapping
    from identity to stored event, [count] is the number of entries, [getAll]
    returns the live entries, [update] only succeeds for an entry that still
    exists, [remove] deletes the entry of that identity, a successful [set]
    creates one new entry, and an operation that reports a failure leaves the
    contents as they were. *)
Class StoreContract (S : Type) `{Store S} : Type := {
  entries : S → gmap N StoreEvent;
  entries_ID : ∀ s k e, entries s !! k = Some e → ID e = k;
  Count_entries : ∀ s, Count s = Z.of_nat (size (entries s));
  GetAll_entries : ∀ s,
    (GetAll s).2 = None → (GetAll s).1 ≡ₚ (map_to_list (entries s)).*2;
  Set_done : ∀ ev s,
    (Set_ ev s).1 = None →
    ∃ k, entries s !! k = None ∧
         entries (Set_ ev s).2 = <[k := admitted k ev]> (entries s);
  Set_failed : ∀ ev s,
    (Set_ ev s).1 ≠ None → entries (Set_ ev s).2 = entries s;
  Update_done : ∀ e s,
    (Update e s).1 = None →
    is_Some (entries s !! ID e) ∧
    entries (Update e s).2 = <[ID e := e]> (entries s);
  Update_failed : ∀ e s,
    (Update e s).1 ≠ None → entries (Update e s).2 = entries s;
  Remove_done : ∀ e s,
    (Remove e s).1 = None →
    entries (Remove e s).2 = delete (ID e) (entries s);
  Remove_failed : ∀ e s,
    (Remove e s).1 ≠ None → entries (Remove e s).2 = entries s
}.

(** A store whose backing resource never fails: every operation on a live
    entry succeeds.  The in-memory store is one. *)
Class Dependable (S : Type) `{StoreContract S} : Prop := {
  GetAll_succeeds : ∀ s, (GetAll s).2 = None;
  Set_succeeds : ∀ ev s, (Set_ ev s).1 = None;
  Update_succeeds : ∀ e s, is_Some (entries s !! ID e) → (Update e s).1 = None;
  Remove_succeeds : ∀ e s, (Remove e s).1 = None
}.

(** ** The environment: HTTP client, clock, log *)

(** resty's [*Response].  [RawResponse] is [nil] when no HTTP response was
    received; [StatusCode()] then answers 0. *)
Record Response : Type := { RawResponse : option Z; Body : bytes }.

(** One request as [client.go] builds it: [SetBody(e)] for a single event,
    [SetFileReader("file", "file", body)] for a bulk body.  Headers, query
    parameters and the API path are configuration passed through unchanged. *)
Record Request : Type := { multipart : bool; payload : bytes }.

(** What [Post] hands back: the pair [(resp, err)] of Go, where [resp] is a
    pointer and may be [nil], and the time the call took. *)
Record Reply : Type := {
  resp : option Response;
  err : option error;
  took : Z
}.

(** The lines [client.go] writes with [log.Printf] and [log.Println]. *)
Inductive LogLine : Type :=
| LogEmitError (e : error)          (* "error emitting events: %v\n" *)
| LogEmitted (c : Z)                (* "emitted %d events" *)
| LogValidation                     (* "event failed validation" *)
| LogStoring (e : error)            (* "error storing event: %s\n" *)
| LogPrintln (e : error)            (* log.Println(err.Error()) *)
| LogRemoving (e : error)           (* "error removing event: %v" *)
| LogBulkError (e : error)          (* "error sending bulk: %v" *)
| LogHttpResponse (code : Z) (body : bytes)
                                    (* "http response: code=%d body=%s" *)
| LogBulkComplete (ms : Z)          (* "bulk send complete: dur=%dms" *)
| LogSendComplete (ms : Z)          (* "event send complete: dur=%dms" *)
| LogSendFailed (e : option error). (* "event failed to send: %v" *)

Inductive PanicReason : Type :=
| NilDereference          (* method call through a nil pointer *)
| CloseOfClosedChannel.   (* close of closed channel *)

(** ** Machine state and the monad of the code *)

Section Client.
Context {S : Type} `{Store S}.

(** A [Client] together with the environment it runs in.  [store], [q] and
    [cl] are the fields of the Go struct ([cl] is [true] once the channel is
    closed); [options] is passed to each function as [o].  [net] answers the
    [n]-th request issued, [sent] records the requests issued so far, [now]
    is the wall clock and [logs] the log output. *)
Record State : Type := {
  store : S;
  q : list event.Event;
  cl : bool;
  now : Z;
  net : nat → Request → Reply;
  sent : list Request;
  logs : list LogLine
}.

Definition set_store (s : S) (t : State) : State :=
  {| store := s; q := q t; cl := cl t; now := now t; net := net t;
     sent := sent t; logs := logs t |}.
Definition set_q (l : list event.Event) (t : State) : State :=
  {| store := store t; q := l; cl := cl t; now := now t; net := net t;
     sent := sent t; logs := logs t |}.
Definition set_cl (b : bool) (t : State) : State :=
  {| store := store t; q := q t; cl := b; now := now t; net := net t;
     sent := sent t; logs := logs t |}.
Definition add_log (l : LogLine) (t : State) : State :=
  {| store := store t; q := q t; cl := cl t; now := now t; net := net t;
     sent := sent t; logs := logs t ++ [l] |}.
Definition add_request (r : Request) (d : Z) (t : State) : State :=
  {| store := store t; q := q t; cl := cl t; now := now t + d; net := net t;
     sent := sent t ++ [r]; logs := logs t |}.

(** A call either returns a value and a new state, or panics. *)
Inductive Result (A : Type) : Type :=
| Ret (a : A) (t : State)
| Panic (why : PanicReason).
#[global] Arguments Ret {A} a t.
#[global] Arguments Panic {A} why.

Definition M (A : Type) : Type := State → Result A.

#[global] Instance M_ret : MRet M := λ A a t, Ret a t.
#[global] Instance M_bind : MBind M := λ A B f m t,
  match m t with
  | Ret a t' => f a t'
  | Panic why => Panic why
  end.

Definition panic {A} (why : PanicReason) : M A := λ _, Panic why.
Definition get {A} (f : State → A) : M A := λ t, Ret (f t) t.
Definition modify (f : State → State) : M unit := λ t, Ret () (f t).

(** Run a store operation on the client's store. *)
Definition on_store (op : S → option error * S) : M (option error) :=
  λ t, let r := op (store t) in Ret r.1 (set_store r.2 t).

Definition log_Printf (l : LogLine) : M unit := modify (add_log l).
Definition time_Now : M Z := get now.

(** [time.Since(start).Milliseconds()] *)
Definition since_ms (start : Z) : M Z :=
  t ← time_Now; mret ((t - start) `quot` 1000000).

(** [t.httpc.R()....Post(t.options.apiPath())] *)
Definition Post (r : Request) : M (option Response * option error) := λ t,
  let a := net t (length (sent t)) r in
  Ret (resp a, err a) (add_request r (took a) t).

(** [resp.StatusCode()] through a pointer that may be [nil]. *)
Definition StatusCode (r : option Response) : M Z :=
  match r with
  | None => panic NilDereference
  | Some r => mret (default 0 (RawResponse r))
  end.

(** [resp.Body()] *)
Definition Body_of (r : option Response) : M bytes :=
  match r with
  | None => panic NilDereference
  | Some r => mret (Body r)
  end.

Section WithOptions.
Variable o : Options.

Definition logDebug (l : LogLine) : M unit :=
  if Debug o then log_Printf l else mret ().

(** [func (t *Client) send(e []byte) error] *)
Definition send (e : bytes) : M (option error) :=
  start ← time_Now;
  '(resp, err) ← Post {| multipart := false; payload := e |};
  code ← StatusCode resp;
  if 299 <? code then
    code ← StatusCode resp;
    mret (Some (ErrStatusCode code))
  else
    ms ← since_ms start;
    logDebug (LogSendComplete ms);;
    mret err.

(** The three assignments at the head of [sendFailed]. *)
Definition mark_attempt (e : StoreEvent) (t : Z) : StoreEvent :=
  {| ID := ID e; Event := Event e; Attempted := true;
     Attempts := wrap (Attempts e + 1); LastAttempt := t |}.

(** The test [t.options.MaxRetries > 0 && e.Attempts > t.options.MaxRetries]. *)
Definition exhausted (e : StoreEvent) : bool :=
  (0 <? MaxRetries o) && (MaxRetries o <? Attempts e).

(** [func (t *Client) sendFailed(e *StoreEvent, sendErr error) (bool, error)].
    [e] is a pointer; the event as the function leaves it is returned
    with the two results. *)
Definition sendFailed (e : StoreEvent) (sendErr : option error)
  : M (StoreEvent * bool * option error) :=
  t ← time_Now;
  let e := mark_attempt e t in
  (if Debug o then log_Printf (LogSendFailed sendErr) else mret ());;
  if exhausted e then
    mret (e, true, None)
  else
    r ← on_store (Update e);
    match r with
    | Some err => mret (e, false, Some (ErrUpdatingEvent err))
    | None => mret (e, false, None)
    end.

(** The last statement of both loops: [if rm { t.store.Remove(e) ... }]. *)
Definition remove_if (rm : bool) (e : StoreEvent) : M unit :=
  if rm then
    r ← on_store (Remove e);
    match r with
    | Some err => log_Printf (LogRemoving err)
    | None => mret ()
    end
  else mret ().

(** The body of the [for] loop of [emit], for the event [e] and the counter
    [i]; it returns the counter.  [i] counts elements of the slice it ranges
    over, so [i++] stays in range. *)
Definition emit_event (e : StoreEvent) (i : Z) : M Z :=
  serr ← send (Event e);
  match serr with
  | None =>
      remove_if true e;;
      mret (i + 1)
  | Some serr =>
      '(e, rm, err) ← sendFailed e (Some serr);
      match err with
      | Some err => log_Printf (LogPrintln err)
      | None => mret ()
      end;;
      remove_if rm e;;
      mret i
  end.

(** The body of the second [for] loop of [emitBulk].  The [err] handed to
    [sendFailed] is the one declared in the loop body, which is [nil]. *)
Definition emitBulk_event (failed : bool) (e : StoreEvent) (i : Z) : M Z :=
  if failed then
    '(e, rm, err) ← sendFailed e None;
    match err with
    | Some err => log_Printf (LogPrintln err)
    | None => mret ()
    end;;
    remove_if rm e;;
    mret i
  else
    remove_if true e;;
    mret (i + 1).

(** [for _, e := range evts { ... }] *)
Fixpoint range (body : StoreEvent → Z → M Z) (evts : list StoreEvent) (i : Z)
  : M Z :=
  match evts with
  | [] => mret i
  | e :: evts => i ← body e i; range body evts i
  end.

(** [emitBulk] from the construction of the body to the debug line after the
    request; the result is [failed]. *)
Definition emitBulk_post (start : Z) (evts : list StoreEvent) : M bool :=
  let body := bytes_Join (Event <$> evts) newline in
  '(resp, err) ← Post {| multipart := true; payload := body |};
  failed ← match err with
           | Some _ => mret true
           | None => code ← StatusCode resp; mret (299 <? code)
           end;
  (if Debug o then
     match err with
     | Some err => log_Printf (LogBulkError err)
     | None => mret ()
     end;;
     code ← StatusCode resp;
     if 299 <? code then
       code ← StatusCode resp;
       body ← Body_of resp;
       log_Printf (LogHttpResponse code body)
     else mret ()
   else mret ());;
  ms ← since_ms start;
  logDebug (LogBulkComplete ms);;
  mret failed.

(** [func (t *Client) emitBulk() (int, error)] *)
Definition emitBulk : M (Z * option error) :=
  start ← time_Now;
  '(evts, err) ← get (λ t, GetAll (store t));
  match err with
  | Some err => mret (0, Some err)
  | None =>
      failed ← emitBulk_post start evts;
      i ← range (emitBulk_event failed) evts 0;
      mret (i, None)
  end.

(** [func (t *Client) emit() (int, error)] *)
Definition emit : M (Z * option error) :=
  c ← get (λ t, Count (store t));
  if c =? 0 then mret (0, None)
  else if Bulk o then emitBulk
  else
    '(evts, err) ← get (λ t, GetAll (store t));
    match err with
    | Some err => mret (0, Some err)
    | None =>
        i ← range emit_event evts 0;
        mret (i, None)
    end.

(** [Flush] after the call of [emit]. *)
Definition Flush_report (r : Z * option error) : M unit :=
  match r.2 with
  | Some err => log_Printf (LogEmitError err)
  | None => mret ()
  end;;
  if (0 <? r.1) && Debug o then log_Printf (LogEmitted r.1) else mret ().

(** [func (t *Client) Flush()] *)
Definition Flush : M unit :=
  r ← emit;
  Flush_report r.

(** [close(t.cl)] *)
Definition close_cl : M unit := λ t,
  if cl t then Panic CloseOfClosedChannel else Ret () (set_cl true t).

(** [func (t *Client) Close()] *)
Definition Close : M unit :=
  close_cl;;
  Flush.

(** [func (t *Client) Queue(evt *event.Event)]: the send [t.q <- evt] on a
    channel with room.  (Applying the client's event options to [evt] is
    outside this model.) *)
Definition Queue (evt : event.Event) : M unit :=
  modify (λ t, set_q (q t ++ [evt]) t).

(** The cases of the [select] in [run]. *)
Inductive Case : Type :=
| FromQ      (* case e := <-t.q *)
| FromTick   (* case <-tick.C *)
| FromCl.    (* case <-t.cl *)

(** What the loop does after a case. *)
Inductive Control : Type :=
| NextIteration
| Return.

(** The case [e := <-t.q] up to the test of the flush threshold; the result
    says whether [t.Flush()] is due. *)
Definition admit_event (e : event.Event) : M bool :=
  if Strict o && negb (event.Validate e) then
    log_Printf LogValidation;;
    mret false
  else
    r ← on_store (Set_ e);
    match r with
    | Some err =>
        log_Printf (LogStoring err);;
        mret false
    | None =>
        c ← get (λ t, Count (store t));
        mret (FlushCount o <=? c)
    end.

(** The body of the case [e := <-t.q]. *)
Definition case_event (e : event.Event) : M Control :=
  due ← admit_event e;
  (if (due : bool) then Flush else mret ());;
  mret NextIteration.

(** The body of the case [<-tick.C]. *)
Definition case_tick : M Control :=
  Flush;;
  mret NextIteration.

(** One iteration of the [for] loop of [run] that takes case [c]; [None]
    when that case cannot proceed (nothing queued, channel not closed). *)
Definition run_iteration (c : Case) (t : State) : option (Result Control) :=
  match c with
  | FromQ =>
      match q t with
      | [] => None
      | e :: rest => Some (case_event e (set_q rest t))
      end
  | FromTick => Some (case_tick t)
  | FromCl => if cl t then Some (Ret Return t) else None
  end.

End WithOptions.
End Client.

#[global] Arguments State : clear implicits.
#[global] Arguments Result : clear implicits.
#[global] Arguments M : clear implicits.

(** ** A flush in steps, and the goroutines around the store *)

(** [Flush] is called from the loop of [run] and, being a public method, from
    any goroutine of the application, as is [Close].  To talk about flushes
    that are under way at the same time, a flush is cut at the points where
    another goroutine may run: before its first statement and between two
    iterations of its [for] loop. *)
Inductive InFlight : Type :=
| Entered
    (* [Flush] was called and has not run yet *)
| Ranging (bulk : option bool) (rest : list StoreEvent) (i : Z).
    (* inside the [for] loop: of [emitBulk] with that [failed], or of
       [emit]; [rest] is still to be ranged over *)

Section Steps.
Context {S : Type} `{Store S}.
Variable o : Options.

Definition loop_body (bulk : option bool) : StoreEvent → Z → M S Z :=
  match bulk with
  | Some failed => emitBulk_event o failed
  | None => emit_event o
  end.

(** The next piece of a flush; [None] when the flush has returned. *)
Definition Flush_step (f : InFlight) : M S (option InFlight) :=
  match f with
  | Entered =>
      c ← get (λ t, Count (store t));
      if c =? 0 then Flush_report o (0, None);; mret None
      else if Bulk o then
        start ← time_Now;
        '(evts, err) ← get (λ t, GetAll (store t));
        match err with
        | Some err => Flush_report o (0, Some err);; mret None
        | None =>
            failed ← emitBulk_post o start evts;
            mret (Some (Ranging (Some failed) evts 0))
        end
      else
        '(evts, err) ← get (λ t, GetAll (store t));
        match err with
        | Some err => Flush_report o (0, Some err);; mret None
        | None => mret (Some (Ranging None evts 0))
        end
  | Ranging bulk [] i => Flush_report o (i, None);; mret None
  | Ranging bulk (e :: rest) i =>
      i ← loop_body bulk e i;
      mret (Some (Ranging bulk rest i))
  end.

(** The steps of a flush run one after the other, to its end. *)
Fixpoint finish_range (bulk : option bool) (rest : list StoreEvent) (i : Z)
  : M S unit :=
  match rest with
  | [] => Flush_report o (i, None)
  | e :: rest => i ← loop_body bulk e i; finish_range bulk rest i
  end.

Definition finish (f : option InFlight) : M S unit :=
  match f with
  | None | Some Entered => mret ()
  | Some (Ranging bulk rest i) => finish_range bulk rest i
  end.

Definition Flush_in_steps : M S unit :=
  f ← Flush_step Entered;
  finish f.

(** Where the goroutine of [run] stands. *)
Inductive LoopAt : Type :=
| AtSelect
| LoopFlushing (f : InFlight)
| Returned.

(** Where a goroutine of the application stands: outside the client,
    blocked in [Queue] on the send [t.q <- evt], or inside [Flush] (called
    directly or from [Close]). *)
Inductive CallerAt : Type :=
| Outside
| Sending (e : event.Event)
| CallerFlushing (f : InFlight).

Record System : Type := {
  machine : State S;
  loop : LoopAt;
  callers : list CallerAt
}.

(** One move of one goroutine. *)
Inductive Move : Type :=
| LoopTakes (c : Case)
    (* the loop is at its [select] and takes case [c]; for [FromQ] the
       event comes out of the buffer of the channel *)
| LoopMeets (n : nat)
    (* the loop is at its [select], the buffer is empty, and the receive
       meets the send of caller [n] *)
| LoopContinues
    (* the loop goes on with the flush it is in *)
| CallerQueues (n : nat) (e : event.Event)
    (* caller [n] calls [Queue]: the event goes into the buffer, or the
       caller blocks *)
| CallerUnblocks (n : nat)
    (* the buffer has room again for the event of a blocked caller *)
| CallerFlushes (n : nat)
| CallerCloses (n : nat)
| CallerContinues (n : nat).
    (* caller [n] goes on with the flush it is in *)

Inductive Outcome : Type :=
| Next (y : System)
| Stuck                     (* the move cannot be made in this state *)
| Crashed (why : PanicReason).

Definition with_machine (t : State S) (y : System) : System :=
  {| machine := t; loop := loop y; callers := callers y |}.

Definition with_loop (l : LoopAt) (y : System) : System :=
  {| machine := machine y; loop := l; callers := callers y |}.

Definition with_caller (n : nat) (c : CallerAt) (y : System) : System :=
  {| machine := machine y; loop := loop y;
     callers := <[n := c]> (callers y) |}.

Definition loop_at (f : option InFlight) : LoopAt :=
  match f with
  | Some f => LoopFlushing f
  | None => AtSelect
  end.

Definition caller_at (f : option InFlight) : CallerAt :=
  match f with
  | Some f => CallerFlushing f
  | None => Outside
  end.

(** The buffer of [t.q] has room for one more event. *)
Definition has_room (t : State S) : bool :=
  Z.of_nat (length (q t)) <? QueueBuffer o.

(** The loop, at its [select], has received [e]. *)
Definition loop_receives (e : event.Event) (y : System) : Outcome :=
  match loop y with
  | AtSelect =>
      match admit_event o e (machine y) with
      | Ret due t' =>
          Next (with_loop (if due then LoopFlushing Entered else AtSelect)
                  (with_machine t' y))
      | Panic why => Crashed why
      end
  | _ => Stuck
  end.

Definition move (m : Move) (y : System) : Outcome :=
  let t := machine y in
  match m with
  | LoopTakes c =>
      match loop y, c with
      | AtSelect, FromQ =>
          match q t with
          | [] => Stuck
          | e :: rest => loop_receives e (with_machine (set_q rest t) y)
          end
      | AtSelect, FromTick => Next (with_loop (LoopFlushing Entered) y)
      | AtSelect, FromCl => if cl t then Next (with_loop Returned y) else Stuck
      | _, _ => Stuck
      end
  | LoopMeets n =>
      match callers y !! n, q t with
      | Some (Sending e), [] => loop_receives e (with_caller n Outside y)
      | _, _ => Stuck
      end
  | LoopContinues =>
      match loop y with
      | LoopFlushing f =>
          match Flush_step f t with
          | Ret f' t' => Next (with_loop (loop_at f') (with_machine t' y))
          | Panic why => Crashed why
          end
      | _ => Stuck
      end
  | CallerQueues n e =>
      match callers y !! n with
      | Some Outside =>
          if has_room t then Next (with_machine (set_q (q t ++ [e]) t) y)
          else Next (with_caller n (Sending e) y)
      | _ => Stuck
      end
  | CallerUnblocks n =>
      match callers y !! n with
      | Some (Sending e) =>
          if has_room t
          then Next (with_caller n Outside
                       (with_machine (set_q (q t ++ [e]) t) y))
          else Stuck
      | _ => Stuck
      end
  | CallerFlushes n =>
      match callers y !! n with
      | Some Outside => Next (with_caller n (CallerFlushing Entered) y)
      | _ => Stuck
      end
  | CallerCloses n =>
      match callers y !! n with
      | Some Outside =>
          match close_cl t with
          | Ret _ t' =>
              Next (with_caller n (CallerFlushing Entered) (with_machine t' y))
          | Panic why => Crashed why
          end
      | _ => Stuck
      end
  | CallerContinues n =>
      match callers y !! n with
      | Some (CallerFlushing f) =>
          match Flush_step f t with
          | Ret f' t' => Next (with_caller n (caller_at f') (with_machine t' y))
          | Panic why => Crashed why
          end
      | _ => Stuck
      end
  end.

(** A schedule is the list of moves in the order they happen. *)
Fixpoint play (ms : list Move) (y : System) : Outcome :=
  match ms with
  | [] => Next y
  | m :: ms =>
      match move m y with
      | Next y' => play ms y'
      | out => out
      end
  end.

Definition loop_flushes (y : System) : nat :=
  match loop y with
  | LoopFlushing _ => 1
  | _ => 0
  end.

Definition is_flushing (c : CallerAt) : bool :=
  match c with
  | CallerFlushing _ => true
  | _ => false
  end.

(** The number of flushes that have started and not returned. *)
Definition flushes_in_flight (y : System) : nat :=
  (loop_flushes y + length (filter (λ c, is_flushing c = true) (callers y)))%nat.

(** The moves in which the code of the loop of [run] runs. *)
Definition by_loop (m : Move) : bool :=
  match m with
  | LoopTakes _ | LoopMeets _ | LoopContinues => true
  | _ => false
  end.

(** The moves of an application that only hands over events. *)
Definition only_queues (m : Move) : bool :=
  match m with
  | CallerFlushes _ | CallerCloses _ | CallerContinues _ => false
  | _ => true
  end.

(** The claim of a single owner, for the runs from [y0]: at most one flush
    is under way at any time, and a move outside the loop leaves the store
    as it is. *)
Definition one_flush_at_a_time (y0 : System) : Prop :=
  ∀ ms y, play ms y0 = Next y → (flushes_in_flight y ≤ 1)%nat.

Definition store_owned_by_loop (y0 : System) : Prop :=
  ∀ ms y m y', play ms y0 = Next y → by_loop m = false →
    move m y = Next y' → store (machine y') = store (machine y).

End Steps.

#[global] Arguments System : clear implicits.
#[global] Arguments Outcome : clear implicits.

(** ** The in-memory store *)

(** Modelled from the spec: [NewMemStore] and the methods of the in-memory
    store are not in [client.go].  The store is a table from identity to the
    bookkeeping of one event; [Set] files the event under an identity that is
    not in use, with no attempt made; [Update] replaces the row of an
    identity that is present and fails otherwise; [Remove] of an identity
    that is absent changes nothing and is no error. *)
Record Row : Type := {
  row_event : bytes;
  row_attempted : bool;
  row_attempts : Z;
  row_last : Z
}.

Record MemStore : Type := { table : gmap N Row }.

Definition to_row (e : StoreEvent) : Row :=
  {| row_event := Event e; row_attempted := Attempted e;
     row_attempts := Attempts e; row_last := LastAttempt e |}.

Definition of_row (k : N) (r : Row) : StoreEvent :=
  {| ID := k; Event := row_event r; Attempted := row_attempted r;
     Attempts := row_attempts r; LastAttempt := row_last r |}.

Definition NewMemStore : MemStore := {| table := ∅ |}.

Definition mem_Set (ev : event.Event) (s : MemStore) : option error * MemStore :=
  let k := fresh (dom (table s)) in
  (None, {| table := <[k := to_row (admitted k ev)]> (table s) |}).

Definition mem_Update (e : StoreEvent) (s : MemStore) : option error * MemStore :=
  match table s !! ID e with
  | Some _ => (None, {| table := <[ID e := to_row e]> (table s) |})
  | None => (Some (Err "event not found"), s)
  end.

Definition mem_Remove (e : StoreEvent) (s : MemStore) : option error * MemStore :=
  (None, {| table := delete (ID e) (table s) |}).

Definition mem_Count (s : MemStore) : Z := Z.of_nat (size (table s)).

Definition mem_GetAll (s : MemStore) : list StoreEvent * option error :=
  ((λ kr, of_row kr.1 kr.2) <$> map_to_list (table s), None).

#[global] Instance MemStore_Store : Store MemStore := {|
  Set_ := mem_Set;
  Update := mem_Update;
  Remove := mem_Remove;
  Count := mem_Count;
  GetAll := mem_GetAll
|}.

Definition mem_entries (s : MemStore) : gmap N StoreEvent :=
  map_imap (λ k r, Some (of_row k r)) (table s).

(** A store whose backing resource can be out of reach: while [offline], the
    operations that write fail and change nothing.  It stands for any store
    that reports failures, which the in-memory store never does. *)
Record OfflineStore : Type := { backing : MemStore; offline : bool }.

Definition unavailable : error := Err "store unavailable".

Definition writing (op : MemStore → option error * MemStore) (s : OfflineStore)
  : option error * OfflineStore :=
  if offline s then (Some unavailable, s)
  else let r := op (backing s) in
       (r.1, {| backing := r.2; offline := offline s |}).

#[global] Instance OfflineStore_Store : Store OfflineStore := {|
  Set_ ev := writing (mem_Set ev);
  Update e := writing (mem_Update e);
  Remove e := writing (mem_Remove e);
  Count s := mem_Count (backing s);
  GetAll s := mem_GetAll (backing s)
|}.

(** A store that cannot be read: [GetAll] reports an error.  It stands for
    any store whose snapshot can fail, which the in-memory store's never
    does. *)
Record UnreadableStore : Type := { unread : MemStore }.

Definition unreadable : error := Err "store unreadable".

#[global] Instance UnreadableStore_Store : Store UnreadableStore := {|
  Set_ ev s := let r := mem_Set ev (unread s) in (r.1, {| unread := r.2 |});
  Update e s := let r := mem_Update e (unread s) in (r.1, {| unread := r.2 |});
  Remove e s := let r := mem_Remove e (unread s) in (r.1, {| unread := r.2 |});
  Count s := mem_Count (unread s);
  GetAll s := ([], Some unreadable)
|}.

(** [func New(opts ...Option)]: the client as [New] leaves
    it, in an environment with network [net] and clock [now].  The goroutine
    it starts is the loop of [System]. *)
Definition New (net : nat → Request → Reply) (now : Z) : State MemStore :=
  {| store := NewMemStore; q := []; cl := false; now := now; net := net;
     sent := []; logs := [] |}.

Definition started (t : State MemStore) (n : nat) : System MemStore :=
  {| machine := t; loop := AtSelect; callers := replicate n Outside |}.

(** ** Vocabulary of the statements *)

(** The request that carries one event, and the one that carries a batch. *)
Definition single (e : StoreEvent) : Request :=
  {| multipart := false; payload := Event e |}.

Definition batch (evts : list StoreEvent) : Request :=
  {| multipart := true; payload := bytes_Join (Event <$> evts) newline |}.

(** The status code of a reply, as [StatusCode()] reads it from a response
    object that is there. *)
Definition status (a : Reply) : Z :=
  match resp a with
  | Some r => default 0 (RawResponse r)
  | None => 0
  end.

(** A reply that confirms delivery: no transport error, status code at most
    299. *)
Definition delivered (a : Reply) : bool :=
  match err a with
  | None => negb (299 <? status a)
  | Some _ => false
  end.

(** The replies to the requests of a per-event flush over [evts], the first
    of which is request number [n]. *)
Fixpoint replies (net : nat → Request → Reply) (n : nat)
    (evts : list StoreEvent) : list Reply :=
  match evts with
  | [] => []
  | e :: evts => net n (single e) :: replies net (S n) evts
  end.

(** How many of them confirm delivery. *)
Definition deliveries (net : nat → Request → Reply) (n : nat)
    (evts : list StoreEvent) : Z :=
  Z.of_nat (length (filter (λ a, delivered a = true) (replies net n evts))).

(** A reply that lets [emitBulk] run to its end: the response object is
    there, or debugging is off and the transport reported an error. *)
Definition bulk_safe (o : Options) (a : Reply) : Prop :=
  is_Some (resp a) ∨ (Debug o = false ∧ is_Some (err a)).

(** What the store holds for [e] once a failed send of it has been handled
    at time [t]. *)
Definition kept_for_retry (o : Options) (t : Z) (e : StoreEvent)
  : option StoreEvent :=
  let e' := mark_attempt e t in
  if exhausted o e' then None else Some e'.

Section Vocabulary.
Context {S : Type} `{StoreContract S}.

(** Every stored event has used at most [MaxRetries] attempts. *)
Definition within_budget (o : Options) (s : S) : Prop :=
  ∀ k e, entries s !! k = Some e → Attempts e ≤ MaxRetries o.

(** A step from [t] to [t'] that does not take the store over the budget. *)
Definition budget_kept (o : Options) (t t' : State S) : Prop :=
  within_budget o (store t) → within_budget o (store t').

(** The HTTP client hands back a response object with every reply. *)
Definition answers (t : State S) : Prop :=
  ∀ n r, is_Some (resp (net t n r)).

(** Whenever [m] returns, [R] relates the state it started in to the state
    it returns in, and [Q] holds of the value. *)
Definition keeps {A} (R : relation (State S)) (Q : A → Prop) (m : M S A)
  : Prop :=
  ∀ t a t', m t = Ret a t' → R t t' ∧ Q a.

(** The store, the channels and the network are as before. *)
Definition passive (t t' : State S) : Prop :=
  store t' = store t ∧ cl t' = cl t ∧ q t' = q t ∧ net t' = net t.

(** The channels and the network are as before. *)
Definition same_channels (t t' : State S) : Prop :=
  cl t' = cl t ∧ q t' = q t ∧ net t' = net t.

(** The state after one request [r] was issued and nothing else happened but
    logging. *)
Definition requested (r : Request) (t t' : State S) : Prop :=
  store t' = store t ∧ sent t' = sent t ++ [r] ∧
  now t' = now t + took (net t (length (sent t)) r) ∧
  net t' = net t ∧ cl t' = cl t ∧ q t' = q t.

(** The entries of every identity but [k] are as before. *)
Definition touches_only (k : N) (t t' : State S) : Prop :=
  ∀ j, j ≠ k → entries (store t') !! j = entries (store t) !! j.

(** The requests a flush of the store at [t] issues: none when the store is
    empty or its snapshot fails, one for the whole snapshot in bulk mode,
    one for each event of the snapshot otherwise. *)
Definition flush_requests (o : Options) (t : State S) : list Request :=
  if Count (store t) =? 0 then []
  else match (GetAll (store t)).2 with
       | Some _ => []
       | None => if Bulk o then [batch (GetAll (store t)).1]
                 else single <$> (GetAll (store t)).1
       end.

(** No identity is in the store at [t'] that was not there at [t]. *)
Definition no_new_entries (t t' : State S) : Prop :=
  dom (entries (store t')) ⊆ dom (entries (store t)).

(** The collector confirms no delivery, whatever is sent. *)
Definition never_confirms (t : State S) : Prop :=
  ∀ n r, delivered (net t n r) = false.

(** [k] calls of [Flush] in a row, as [k] ticks of the timer make them. *)
Fixpoint flushes (o : Options) (k : nat) : M S unit :=
  match k with
  | O => mret ()
  | Datatypes.S k => Flush o;; flushes o k
  end.

End Vocabulary.

(** ** Sample inputs *)

Module Sample.

Definition per_event : Options :=
  {| QueueBuffer := 8; FlushCount := 3; Bulk := false; Strict := true;
     MaxRetries := 2; Debug := false |}.

Definition in_bulk : Options :=
  {| QueueBuffer := 8; FlushCount := 3; Bulk := true; Strict := false;
     MaxRetries := 2; Debug := false |}.

Definition in_bulk_debug : Options :=
  {| QueueBuffer := 8; FlushCount := 3; Bulk := true; Strict := false;
     MaxRetries := 2; Debug := true |}.

Definition unlimited : Options :=
  {| QueueBuffer := 8; FlushCount := 100; Bulk := false; Strict := false;
     MaxRetries := 0; Debug := false |}.

(** The collector accepts, the collector answers 500, and the request does
    not leave the HTTP client (resty hands back no response object). *)
Definition accepted : Reply :=
  {| resp := Some {| RawResponse := Some 200; Body := [] |}; err := None;
     took := 5 |}.

Definition rejected : Reply :=
  {| resp := Some {| RawResponse := Some 500; Body := [] |}; err := None;
     took := 7 |}.

Definition refused : Reply :=
  {| resp := None; err := Some (Err "parse collector URL: invalid character");
     took := 0 |}.

(** A network that accepts the first request and the third, and answers 500
    to the others. *)
Definition flaky (n : nat) (r : Request) : Reply :=
  match n with
  | 0%nat | 2%nat => accepted
  | _ => rejected
  end.

Definition ev (b : byte) : event.Event :=
  {| event.Data := [b]; event.Validate := true |}.

Definition malformed : event.Event :=
  {| event.Data := [x3f]; event.Validate := false |}.

(** The stored event of identity [k] and payload [b] after [n] attempts. *)
Definition stored (k : N) (b : byte) (n : Z) : StoreEvent :=
  {| ID := k; Event := [b]; Attempted := 0 <? n; Attempts := n;
     LastAttempt := 0 |}.

Definition holding (l : list StoreEvent) : MemStore :=
  {| table := list_to_map ((λ e, (ID e, to_row e)) <$> l) |}.

Definition client {S} (s : S) (net : nat → Request → Reply) : State S :=
  {| store := s; q := []; cl := false; now := 100; net := net; sent := [];
     logs := [] |}.

(** Two events queued by one caller, with a threshold that does not trigger,
    and the schedule of the two goroutines in which the caller's [Flush] and
    the loop's timer flush are under way together. *)
Definition overlap : list Move :=
  [CallerQueues 0 (ev x01); CallerQueues 0 (ev x02);
   LoopTakes FromQ; LoopTakes FromQ;
   CallerFlushes 0; CallerContinues 0;
   LoopTakes FromTick; LoopContinues].

(** One event is queued and admitted; then the timer ticks three times, and
    each flush runs its three steps (snapshot, the event, return). *)
Definition three_failures : list Move :=
  [CallerQueues 0 (ev x01); LoopTakes FromQ]
  ++ concat (replicate 3
       [LoopTakes FromTick; LoopContinues; LoopContinues; LoopContinues]).

(** An event is queued while the loop is in the flush its timer started. *)
Definition queue_during_flush : list Move :=
  [CallerQueues 0 (ev x01); LoopTakes FromQ; LoopTakes FromTick;
   CallerQueues 0 (ev x02); LoopContinues].

(** A network in which the second request does not leave the HTTP client. *)
Definition refuses_second (n : nat) (r : Request) : Reply :=
  match n with
  | 1%nat => refused
  | _ => accepted
  end.

(** [Close] by a caller, its flush of the empty store, and the loop taking
    the closed [cl]; then, after the loop has returned, an event is queued
    and the caller flushes. *)
Definition shutdown : list Move :=
  [CallerCloses 0; CallerContinues 0; LoopTakes FromCl].

Definition after_shutdown : list Move :=
  [CallerQueues 0 (ev x01); CallerFlushes 0; CallerContinues 0].

End Sample.

(** ** Proofs *)

Lemma wrap_id z : int_min ≤ z ≤ int_max → wrap z = z.
Proof.
  unfold wrap, int_min, int_max. intros Hz.
  rewrite Z.mod_small; lia.
Qed.

Lemma wrap_range z : int_min ≤ wrap z ≤ int_max.
Proof.
  unfold wrap, int_min, int_max.
  pose proof (Z.mod_pos_bound (z + 2 ^ 63) (2 ^ 64)). lia.
Qed.

Section Proofs.
Context {S : Type} `{StoreContract S}.
Variable o : Options.

(** Unfold the monad of the code. *)
Ltac run :=
  repeat progress
    (unfold log_Printf, time_Now, on_store, Post in *;
     unfold mbind, M_bind, mret, M_ret, get, modify, panic in *;
     cbn in * ).

Lemma bind_Ret {A B} (m : M S A) (f : A → M S B) t a t' :
  m t = Ret a t' → (m ≫= f) t = f a t'.
Proof. intros E. run. by rewrite E. Qed.

Lemma bind_Panic {A B} (m : M S A) (f : A → M S B) t why :
  m t = Panic why → (m ≫= f) t = Panic why.
Proof. intros E. run. by rewrite E. Qed.

Lemma bind_inv {A B} (m : M S A) (f : A → M S B) t b t' :
  (m ≫= f) t = Ret b t' → ∃ a t1, m t = Ret a t1 ∧ f a t1 = Ret b t'.
Proof. run. destruct (m t) as [a t1|]; [eauto | done]. Qed.

(** *** Relations kept by the code *)

Lemma keeps_ret {A} R `{!Reflexive R} (Q : A → Prop) (a : A) :
  Q a → keeps (S:=S) R Q (mret a).
Proof. intros Ha t a' t' E. run. by simplify_eq. Qed.

Lemma keeps_bind {A B} R `{!Transitive R} (P : A → Prop) (Q : B → Prop)
    (m : M S A) (f : A → M S B) :
  keeps R P m → (∀ a, P a → keeps R Q (f a)) → keeps R Q (m ≫= f).
Proof.
  intros Hm Hf t b t' E. apply bind_inv in E as (a & t1 & E1 & E2).
  destruct (Hm _ _ _ E1) as [? Ha]. destruct (Hf a Ha _ _ _ E2).
  split; [by etrans | done].
Qed.

Lemma keeps_weaken {A} (R R' : relation (State S)) (Q Q' : A → Prop) m :
  (∀ t t', R t t' → R' t t') → (∀ a, Q a → Q' a) →
  keeps R Q m → keeps R' Q' m.
Proof. intros HR HQ Hm t a t' E. destruct (Hm _ _ _ E). eauto. Qed.

#[local] Instance passive_preorder : PreOrder (passive (S:=S)).
Proof.
  split.
  - by intros t.
  - intros t1 t2 t3 (?&?&?&?) (?&?&?&?). unfold passive. split_and!; congruence.
Qed.

#[local] Instance same_channels_preorder : PreOrder (same_channels (S:=S)).
Proof.
  split.
  - by intros t.
  - intros t1 t2 t3 (?&?&?) (?&?&?). unfold same_channels.
    split_and!; congruence.
Qed.

Lemma passive_same_channels (t t' : State S) : passive t t' → same_channels t t'.
Proof. intros (?&?&?&?). done. Qed.

Lemma keeps_range R `{!PreOrder R} (ok : StoreEvent → Prop) body evts i :
  (∀ e i, ok e → keeps R (λ _, True) (body e i)) →
  Forall ok evts →
  keeps (S:=S) R (λ _, True) (range body evts i).
Proof.
  intros Hb Hok. revert i.
  induction Hok as [|e evts He _ IH]; intros i; cbn.
  - apply keeps_ret; try apply _; done.
  - eapply keeps_bind; [apply _ .. | by apply Hb |].
    intros a _. apply IH.
Qed.

(** The calls that leave the store alone. *)
Lemma log_Printf_passive l : keeps (S:=S) passive (λ _, True) (log_Printf l).
Proof. intros t a t' E. run. simplify_eq. by repeat split. Qed.

Lemma get_passive {A} (f : State S → A) : keeps passive (λ _, True) (get f).
Proof. intros t a t' E. run. simplify_eq. by repeat split. Qed.

Lemma Post_passive r : keeps (S:=S) passive (λ _, True) (Post r).
Proof. intros t a t' E. run. simplify_eq. by repeat split. Qed.

Lemma StatusCode_passive r : keeps (S:=S) passive (λ _, True) (StatusCode r).
Proof. intros t a t' E. destruct r; run; simplify_eq. by repeat split. Qed.

Lemma Body_of_passive r : keeps (S:=S) passive (λ _, True) (Body_of r).
Proof. intros t a t' E. destruct r; run; simplify_eq. by repeat split. Qed.

(** One step of a proof that a relation is kept. *)
Ltac keeps_step :=
  lazymatch goal with
  | |- keeps _ _ (mret _) => apply keeps_ret; try apply _; done
  | |- keeps _ _ (_ ≫= _) =>
      eapply (keeps_bind _ (λ _, True)); [apply _ .. | idtac | intros ? _]
  | |- keeps _ _ (log_Printf _) => apply log_Printf_passive
  | |- keeps _ _ (get _) => apply get_passive
  | |- keeps _ _ time_Now => apply get_passive
  | |- keeps _ _ (Post _) => apply Post_passive
  | |- keeps _ _ (StatusCode _) => apply StatusCode_passive
  | |- keeps _ _ (Body_of _) => apply Body_of_passive
  | |- keeps _ _ (if ?b then _ else _) => destruct b
  | |- keeps _ _ (match ?x with _ => _ end) => destruct x
  end.

Lemma since_ms_passive start : keeps (S:=S) passive (λ _, True) (since_ms start).
Proof. unfold since_ms. repeat keeps_step. Qed.

Lemma logDebug_passive l : keeps (S:=S) passive (λ _, True) (logDebug o l).
Proof. unfold logDebug. repeat keeps_step. Qed.

Lemma send_passive e : keeps (S:=S) passive (λ _, True) (send o e).
Proof.
  unfold send. repeat keeps_step; first [apply since_ms_passive | apply logDebug_passive].
Qed.

Lemma Flush_report_passive r : keeps (S:=S) passive (λ _, True) (Flush_report o r).
Proof. unfold Flush_report. repeat keeps_step. Qed.

Lemma emitBulk_post_passive start evts :
  keeps (S:=S) passive (λ _, True) (emitBulk_post o start evts).
Proof.
  unfold emitBulk_post.
  repeat keeps_step; first [apply since_ms_passive | apply logDebug_passive].
Qed.

(** *** Relations kept by the code that writes to the store *)

Section Kept.
Variable R : relation (State S).
Context `{!PreOrder R}.
Variable ok : StoreEvent → Prop.
Hypothesis R_passive : ∀ t t', passive t t' → R t t'.
Hypothesis R_Update : ∀ e t,
  ok e → exhausted o e = false → R t (set_store (Update e (store t)).2 t).
Hypothesis R_Remove : ∀ e t, ok e → R t (set_store (Remove e (store t)).2 t).
Hypothesis ok_mark : ∀ e t, ok e → ok (mark_attempt e t).

Lemma passive_keeps {A} (m : M S A) :
  keeps passive (λ _, True) m → keeps R (λ _, True) m.
Proof. apply keeps_weaken; auto. Qed.

Ltac kept :=
  repeat first
    [ keeps_step
    | apply passive_keeps;
      first [ apply send_passive | apply log_Printf_passive
            | apply get_passive | apply Flush_report_passive
            | apply emitBulk_post_passive ] ].

Lemma Update_keeps e :
  ok e → exhausted o e = false → keeps R (λ _, True) (on_store (Update e)).
Proof. intros He Hx t a t' E. run. simplify_eq. split; [by apply R_Update | done]. Qed.

Lemma Remove_keeps e : ok e → keeps R (λ _, True) (on_store (Remove e)).
Proof. intros He t a t' E. run. simplify_eq. split; [by apply R_Remove | done]. Qed.

Lemma sendFailed_keeps e serr :
  ok e → keeps R (λ r, ok r.1.1) (sendFailed o e serr).
Proof.
  intros He. unfold sendFailed.
  eapply (keeps_bind _ (λ _, True)); [apply _ .. | kept |]. intros tm _.
  eapply (keeps_bind _ (λ _, True)); [apply _ .. | kept |]. intros _ _.
  destruct (exhausted o (mark_attempt e tm)) eqn:Hx.
  - apply keeps_ret; [apply _ | by apply ok_mark].
  - eapply (keeps_bind _ (λ _, True));
      [apply _ .. | apply Update_keeps; [by apply ok_mark | done] |].
    intros [er|] _; (apply keeps_ret; [apply _ | by apply ok_mark]).
Qed.

Lemma remove_if_keeps rm e : ok e → keeps R (λ _, True) (remove_if rm e).
Proof.
  intros He. unfold remove_if. destruct rm; [|kept].
  eapply (keeps_bind _ (λ _, True)); [apply _ .. | by apply Remove_keeps |].
  intros [er|] _; kept.
Qed.

(** The statements both loops run after a failed send. *)
Ltac failure_kept He :=
  eapply keeps_bind; [apply _ .. | by apply sendFailed_keeps |];
  intros [[? ?] ?] ?;
  eapply (keeps_bind _ (λ _, True)); [apply _ .. | kept |];
  intros _ _;
  eapply (keeps_bind _ (λ _, True)); [apply _ .. | by apply remove_if_keeps |];
  intros _ _; kept.

Lemma emitBulk_event_keeps failed e i :
  ok e → keeps R (λ _, True) (emitBulk_event o failed e i).
Proof.
  intros He. unfold emitBulk_event. destruct failed.
  - failure_kept He.
  - eapply (keeps_bind _ (λ _, True)); [apply _ .. | by apply remove_if_keeps |].
    intros _ _. kept.
Qed.

Lemma emit_event_keeps e i : ok e → keeps R (λ _, True) (emit_event o e i).
Proof.
  intros He. unfold emit_event.
  eapply (keeps_bind _ (λ _, True)); [apply _ .. | kept |].
  intros [serr|] _.
  - failure_kept He.
  - eapply (keeps_bind _ (λ _, True)); [apply _ .. | by apply remove_if_keeps |].
    intros _ _. kept.
Qed.

Lemma loop_body_keeps bulk e i :
  ok e → keeps R (λ _, True) (loop_body o bulk e i).
Proof.
  destruct bulk; [apply emitBulk_event_keeps | apply emit_event_keeps].
Qed.

Hypothesis ok_all : ∀ e, ok e.

Lemma range_keeps bulk evts i :
  keeps R (λ _, True) (range (loop_body o bulk) evts i).
Proof.
  apply (keeps_range R ok).
  - intros. by apply loop_body_keeps.
  - by apply Forall_forall.
Qed.

Lemma emitBulk_keeps : keeps R (λ _, True) (emitBulk o).
Proof.
  unfold emitBulk. kept. apply (range_keeps (Some _)).
Qed.

Lemma emit_keeps : keeps R (λ _, True) (emit o).
Proof.
  unfold emit. kept; [apply emitBulk_keeps | apply (range_keeps None)].
Qed.

Lemma Flush_keeps : keeps R (λ _, True) (Flush o).
Proof. unfold Flush. kept. apply emit_keeps. Qed.

Lemma Flush_step_keeps f : keeps R (λ _, True) (Flush_step o f).
Proof.
  destruct f as [|bulk [|e rest] i]; cbn; kept. by apply loop_body_keeps.
Qed.

Hypothesis R_Set : ∀ ev t, R t (set_store (Set_ ev (store t)).2 t).

Lemma admit_event_keeps ev : keeps R (λ _, True) (admit_event o ev).
Proof.
  unfold admit_event. destruct (Strict o && negb (event.Validate ev)); [kept|].
  intros t due t' E. run.
  pose proof (R_Set ev t) as HS.
  destruct (Set_ ev (store t)) as [[?|] s1]; cbn in *; simplify_eq.
  - split; [|done]. etrans; [done|]. by apply R_passive.
  - done.
Qed.

Lemma case_event_keeps ev : keeps R (λ _, True) (case_event o ev).
Proof.
  unfold case_event. kept; [apply admit_event_keeps | apply Flush_keeps].
Qed.

Lemma case_tick_keeps : keeps R (λ _, True) (case_tick o).
Proof. unfold case_tick. kept. apply Flush_keeps. Qed.

End Kept.

(** *** The channels and the network are left alone *)

Lemma Flush_same_channels : keeps same_channels (λ _, True) (Flush o).
Proof.
  apply (Flush_keeps same_channels (λ _, True)); try done.
  apply passive_same_channels.
Qed.

Lemma close_cl_closed t : cl t = true → close_cl (S:=S) t = Panic CloseOfClosedChannel.
Proof. intros E. unfold close_cl. by rewrite E. Qed.

Lemma close_cl_open t : cl t = false → close_cl (S:=S) t = Ret () (set_cl true t).
Proof. intros E. unfold close_cl. by rewrite E. Qed.

Lemma Close_closes t t' : Close o t = Ret () t' → cl t' = true.
Proof.
  intros E. unfold Close in E. apply bind_inv in E as ([] & t1 & E1 & E2).
  unfold close_cl in E1. destruct (cl t) eqn:Hcl; simplify_eq.
  apply Flush_same_channels in E2 as [(Hc & _) _]. by rewrite Hc.
Qed.

(** *** The stored attempts stay within the budget *)

#[local] Abbreviation budget_step := (budget_kept o).

#[local] Instance budget_kept_preorder : PreOrder budget_step.
Proof. split; unfold budget_kept; [by intros t | intros t1 t2 t3; auto]. Qed.

Lemma passive_budget t t' : passive t t' → budget_step t t'.
Proof. intros (Hs & _). unfold budget_kept. by rewrite Hs. Qed.

Lemma Update_budget e (t : State S) :
  0 < MaxRetries o → exhausted o e = false →
  budget_step t (set_store (Update e (store t)).2 t).
Proof.
  intros Hmax Hx Hb k e' Hk. cbn in Hk.
  destruct (decide ((Update e (store t)).1 = None)) as [Hok|Hfail].
  - apply Update_done in Hok as [_ Hent]. rewrite Hent in Hk.
    destruct (decide (ID e = k)) as [<-|Hne].
    + rewrite lookup_insert_eq in Hk. simplify_eq.
      unfold exhausted in Hx. apply andb_false_iff in Hx as [Hx|Hx]; lia.
    + rewrite lookup_insert_ne in Hk by done. by eapply Hb.
  - apply Update_failed in Hfail. rewrite Hfail in Hk. by eapply Hb.
Qed.

Lemma Remove_budget e (t : State S) :
  budget_step t (set_store (Remove e (store t)).2 t).
Proof.
  intros Hb k e' Hk. cbn in Hk.
  destruct (decide ((Remove e (store t)).1 = None)) as [Hok|Hfail].
  - apply Remove_done in Hok. rewrite Hok in Hk.
    apply lookup_delete_Some in Hk as [_ Hk]. by eapply Hb.
  - apply Remove_failed in Hfail. rewrite Hfail in Hk. by eapply Hb.
Qed.

Lemma Set_budget ev (t : State S) :
  0 < MaxRetries o → budget_step t (set_store (Set_ ev (store t)).2 t).
Proof.
  intros Hmax Hb k e' Hk. cbn in Hk.
  destruct (decide ((Set_ ev (store t)).1 = None)) as [Hok|Hfail].
  - apply Set_done in Hok as (k0 & _ & Hent). rewrite Hent in Hk.
    destruct (decide (k0 = k)) as [<-|Hne].
    + rewrite lookup_insert_eq in Hk. simplify_eq. cbn. lia.
    + rewrite lookup_insert_ne in Hk by done. by eapply Hb.
  - apply Set_failed in Hfail. rewrite Hfail in Hk. by eapply Hb.
Qed.

(** *** A loop iteration touches the entry of its own event only *)

#[local] Instance touches_only_preorder k : PreOrder (touches_only (S:=S) k).
Proof.
  split; unfold touches_only.
  - by intros t.
  - intros t1 t2 t3 H12 H23 j Hj. by rewrite H23, H12.
Qed.

Lemma passive_touches k (t t' : State S) : passive t t' → touches_only k t t'.
Proof. intros (Hs & _) j _. by rewrite Hs. Qed.

Lemma Update_touches e (t : State S) :
  touches_only (ID e) t (set_store (Update e (store t)).2 t).
Proof.
  intros j Hj. cbn.
  destruct (decide ((Update e (store t)).1 = None)) as [Hok|Hfail].
  - apply Update_done in Hok as [_ Hent]. rewrite Hent.
    by rewrite lookup_insert_ne.
  - apply Update_failed in Hfail. by rewrite Hfail.
Qed.

Lemma Remove_touches e (t : State S) :
  touches_only (ID e) t (set_store (Remove e (store t)).2 t).
Proof.
  intros j Hj. cbn.
  destruct (decide ((Remove e (store t)).1 = None)) as [Hok|Hfail].
  - apply Remove_done in Hok. rewrite Hok. by rewrite lookup_delete_ne.
  - apply Remove_failed in Hfail. by rewrite Hfail.
Qed.

Lemma loop_body_touches bulk e i :
  keeps (touches_only (ID e)) (λ _, True) (loop_body o bulk e i).
Proof.
  apply (loop_body_keeps (touches_only (ID e)) (λ e', ID e' = ID e)); try done.
  - apply passive_touches.
  - intros e' t He' _. rewrite <-He'. apply Update_touches.
  - intros e' t He'. rewrite <-He'. apply Remove_touches.
Qed.

(** *** What [send] returns *)

Lemma send_answered e (t : State S) :
  let a := net t (length (sent t)) {| multipart := false; payload := e |} in
  is_Some (resp a) →
  ∃ t', send o e t =
          Ret (if 299 <? status a then Some (ErrStatusCode (status a))
               else err a) t'
        ∧ requested {| multipart := false; payload := e |} t t'.
Proof.
  intros a [r Hr]. unfold send. run. fold a.
  unfold status. rewrite Hr. cbn.
  destruct (299 <? default 0 (RawResponse r)); cbn.
  - eexists. split; [done|]. by repeat split.
  - unfold logDebug. destruct (Debug o); run; (eexists; split; [done|]);
      by repeat split.
Qed.

Lemma send_nil e (t : State S) :
  resp (net t (length (sent t)) {| multipart := false; payload := e |}) = None →
  send o e t = Panic NilDereference.
Proof. intros Hr. unfold send. run. by rewrite Hr. Qed.

Lemma send_result_delivered (a : Reply) :
  (if 299 <? status a then Some (ErrStatusCode (status a)) else err a) = None
  ↔ delivered a = true.
Proof.
  unfold delivered. destruct (299 <? status a), (err a); cbn; naive_solver.
Qed.

(** *** The retry policy *)

Lemma sendFailed_returns e sendErr (t : State S) :
  let e' := mark_attempt e (now t) in
  ∃ t', sendFailed o e sendErr t =
          Ret (e', exhausted o e',
               if exhausted o e' then None
               else ErrUpdatingEvent <$> (Update e' (store t)).1) t'
        ∧ store t' = (if exhausted o e' then store t
                      else (Update e' (store t)).2)
        ∧ now t' = now t ∧ sent t' = sent t ∧ same_channels t t'.
Proof.
  intros e'. unfold sendFailed. run. fold e'.
  destruct (Debug o); run; destruct (exhausted o e'); run;
    try (eexists; split_and!; done);
    destruct (Update e' (store t)) as [[er|] s1]; run;
    eexists; split_and!; done.
Qed.

Lemma remove_if_returns rm e (t : State S) :
  ∃ t', remove_if rm e t = Ret () t'
        ∧ store t' = (if rm then (Remove e (store t)).2 else store t)
        ∧ now t' = now t ∧ sent t' = sent t ∧ same_channels t t'.
Proof.
  unfold remove_if. destruct rm; run; [|eexists; split_and!; done].
  destruct (Remove e (store t)) as [[er|] s1]; run; eexists; split_and!; done.
Qed.

Lemma log_if_error (er : option error) (t : State S) :
  ∃ t', match er with
        | Some err => log_Printf (LogPrintln err)
        | None => mret ()
        end t = Ret () t'
        ∧ store t' = store t ∧ now t' = now t ∧ sent t' = sent t
        ∧ same_channels t t'.
Proof. destruct er; run; eexists; split_and!; done. Qed.

(** The handling of a failed send in either loop: [sendFailed], the log
    line for its error, and the removal when it says so. *)
Ltac failure_handled e sendErr t :=
  let t1 := fresh "t" in let t2 := fresh "t" in let t3 := fresh "t" in
  let E := fresh "E" in
  destruct (sendFailed_returns e sendErr t) as (t1 & E & ? & ? & ? & ?);
  erewrite bind_Ret by exact E; clear E; cbn;
  match goal with
  | |- context [match ?er with Some _ => _ | None => _ end] =>
      destruct (log_if_error er t1) as (t2 & E & ? & ? & ? & ?)
  end;
  erewrite bind_Ret by exact E; clear E;
  destruct (remove_if_returns (exhausted o (mark_attempt e (now t)))
              (mark_attempt e (now t)) t2) as (t3 & E & Hs3 & ? & ? & ?);
  erewrite bind_Ret by exact E; clear E; run;
  eexists; split; [done|]; split_and!;
  [ rewrite Hs3; destruct (exhausted o (mark_attempt e (now t))); congruence
  | congruence
  | congruence
  | by do 2 (etrans; [|done]) ].

Lemma emitBulk_event_failed e i (t : State S) :
  let e' := mark_attempt e (now t) in
  ∃ t', emitBulk_event o true e i t = Ret i t'
        ∧ store t' = (if exhausted o e' then (Remove e' (store t)).2
                      else (Update e' (store t)).2)
        ∧ now t' = now t ∧ sent t' = sent t ∧ same_channels t t'.
Proof. intros e'. unfold emitBulk_event, e'. failure_handled e (@None error) t. Qed.

Lemma emit_event_failed e i serr (t0 t : State S) :
  send o (Event e) t0 = Ret (Some serr) t →
  let e' := mark_attempt e (now t) in
  ∃ t', emit_event o e i t0 = Ret i t'
        ∧ store t' = (if exhausted o e' then (Remove e' (store t)).2
                      else (Update e' (store t)).2)
        ∧ now t' = now t ∧ sent t' = sent t ∧ same_channels t t'.
Proof.
  intros Es e'. unfold emit_event, e'. erewrite bind_Ret by exact Es.
  failure_handled e (Some serr) t.
Qed.

Lemma emitBulk_event_delivered e i (t : State S) :
  ∃ t', emitBulk_event o false e i t = Ret (i + 1) t'
        ∧ store t' = (Remove e (store t)).2
        ∧ now t' = now t ∧ sent t' = sent t ∧ same_channels t t'.
Proof.
  unfold emitBulk_event.
  destruct (remove_if_returns true e t) as (t1 & E & ? & ? & ? & ?).
  erewrite bind_Ret by exact E. run. eexists. split_and!; done.
Qed.

Lemma emit_event_delivered e i (t0 t : State S) :
  send o (Event e) t0 = Ret None t →
  ∃ t', emit_event o e i t0 = Ret (i + 1) t'
        ∧ store t' = (Remove e (store t)).2
        ∧ now t' = now t ∧ sent t' = sent t ∧ same_channels t t'.
Proof.
  intros Es. unfold emit_event. erewrite bind_Ret by exact Es.
  destruct (remove_if_returns true e t) as (t1 & E & ? & ? & ? & ?).
  erewrite bind_Ret by exact E. run. eexists. split_and!; done.
Qed.

Lemma mark_attempt_counts e t :
  int_min ≤ Attempts e < int_max →
  Attempts (mark_attempt e t) = Attempts e + 1.
Proof. intros He. cbn. apply wrap_id. unfold int_min, int_max in *. lia. Qed.

Lemma exhausted_iff e :
  exhausted o e = true ↔ 0 < MaxRetries o ∧ MaxRetries o < Attempts e.
Proof. unfold exhausted. rewrite andb_true_iff, !Z.ltb_lt. done. Qed.

(** C1.  A failed send of [e] marks it attempted, adds one to its attempts
    and stamps it with the current time.  [sendFailed] then answers "remove"
    exactly when [MaxRetries > 0] and the new count is above [MaxRetries];
    in that case it leaves the store alone and both loops call [Remove] with
    the event, which deletes its entry; otherwise it calls [Update] with the
    event, which the store then holds, and nothing is removed.  With
    [MaxRetries = 0] the answer is never "remove". *)
Theorem sendFailed_retry_policy e sendErr (t : State S) :
  int_min ≤ Attempts e < int_max →
  let e' := mark_attempt e (now t) in
  (Attempted e' = true ∧ Attempts e' = Attempts e + 1 ∧ LastAttempt e' = now t
   ∧ ID e' = ID e ∧ Event e' = Event e)
  ∧ (exhausted o e' = true ↔ 0 < MaxRetries o ∧ MaxRetries o < Attempts e + 1)
  ∧ (MaxRetries o = 0 → exhausted o e' = false)
  ∧ (∃ t', sendFailed o e sendErr t =
             Ret (e', exhausted o e',
                  if exhausted o e' then None
                  else ErrUpdatingEvent <$> (Update e' (store t)).1) t'
           ∧ store t' = if exhausted o e' then store t
                        else (Update e' (store t)).2)
  ∧ (∀ i, ∃ t', emitBulk_event o true e i t = Ret i t'
           ∧ store t' = if exhausted o e' then (Remove e' (store t)).2
                        else (Update e' (store t)).2)
  ∧ (∀ i serr t0, send o (Event e) t0 = Ret (Some serr) t →
       ∃ t', emit_event o e i t0 = Ret i t'
           ∧ store t' = if exhausted o e' then (Remove e' (store t)).2
                        else (Update e' (store t)).2)
  ∧ ((Remove e' (store t)).1 = None →
       entries (Remove e' (store t)).2 !! ID e = None)
  ∧ ((Update e' (store t)).1 = None →
       entries (Update e' (store t)).2 !! ID e = Some e').
Proof.
  intros Hrange e'. split_and!; try done.
  - by apply mark_attempt_counts.
  - rewrite exhausted_iff. unfold e'. by rewrite mark_attempt_counts.
  - intros Hz. unfold exhausted. rewrite Hz. done.
  - destruct (sendFailed_returns e sendErr t) as (t' & E & Hs & _). eauto.
  - intros i. destruct (emitBulk_event_failed e i t) as (t' & E & Hs & _). eauto.
  - intros i serr t0 Es.
    destruct (emit_event_failed e i serr t0 t Es) as (t' & E & Hs & _). eauto.
  - intros Hok. rewrite (Remove_done _ _ Hok). apply lookup_delete_eq.
  - intros Hok. destruct (Update_done _ _ Hok) as [_ ->]. apply lookup_insert_eq.
Qed.

(** C8.  With no event in the store, [emit] returns [(0, nil)] and [Flush]
    returns, both in the state they were called in: no request is issued,
    the store is as it was, nothing is logged. *)
Theorem emit_empty_store (t : State S) :
  Count (store t) = 0 →
  emit o t = Ret (0, None) t ∧ Flush o t = Ret () t.
Proof.
  intros Hc.
  assert (emit o t = Ret (0, None) t) as E.
  { unfold emit. run. by rewrite Hc. }
  split; [done|]. unfold Flush. erewrite bind_Ret by exact E.
  unfold Flush_report. run. done.
Qed.

(** C10.  [Close] on a client whose [cl] channel is closed panics with
    "close of closed channel"; a [Close] that returns leaves the channel
    closed, so a second [Close] on the same client panics. *)
Theorem Close_twice_panics (t : State S) :
  (cl t = true → Close o t = Panic CloseOfClosedChannel)
  ∧ (∀ t', Close o t = Ret () t' → Close o t' = Panic CloseOfClosedChannel).
Proof.
  assert (∀ t0 : State S, cl t0 = true → Close o t0 = Panic CloseOfClosedChannel)
    as Hclosed.
  { intros t0 Hcl. unfold Close. apply bind_Panic. by apply close_cl_closed. }
  split; [apply Hclosed|].
  intros t' E. apply Hclosed. by eapply Close_closes.
Qed.

(** C6.  In strict mode an event that fails validation is taken off the
    queue and dropped: the iteration logs the failure and goes on to the next
    one; the store (hence [GetAll] and [Count]) is as before and no request
    is issued, in this iteration or later for that event, which is neither
    queued nor stored any more. *)
Theorem invalid_event_discarded e rest (t : State S) :
  Strict o = true → event.Validate e = false → q t = e :: rest →
  let t' := add_log LogValidation (set_q rest t) in
  run_iteration o FromQ t = Some (Ret NextIteration t')
  ∧ store t' = store t ∧ GetAll (store t') = GetAll (store t)
  ∧ Count (store t') = Count (store t) ∧ entries (store t') = entries (store t)
  ∧ sent t' = sent t ∧ q t' = rest.
Proof.
  intros Hs Hv Hq t'. split; [|done].
  unfold run_iteration. rewrite Hq. unfold case_event, admit_event.
  rewrite Hs, Hv. run. done.
Qed.

(** C7.  A failure of the store is handled where it happens.  When [Set]
    fails for an event just taken off the queue, the iteration logs the
    error and goes on without flushing: the event is dropped and the entries
    of the store are as before.  When [Update] fails while a failed send is
    handled, [sendFailed] reports the error, the loop logs it and does not
    call [Remove]: the entries of the store, that of the event included,
    are as before. *)
Theorem store_failure_skips (t : State S) :
  (∀ e rest er,
     q t = e :: rest → Strict o && negb (event.Validate e) = false →
     (Set_ e (store t)).1 = Some er →
     ∃ t', run_iteration o FromQ t = Some (Ret NextIteration t')
       ∧ store t' = (Set_ e (store t)).2
       ∧ entries (store t') = entries (store t)
       ∧ logs t' = logs t ++ [LogStoring er]
       ∧ sent t' = sent t ∧ q t' = rest)
  ∧ (∀ e er,
       let e' := mark_attempt e (now t) in
       exhausted o e' = false → (Update e' (store t)).1 = Some er →
       (∀ sendErr, ∃ t',
          sendFailed o e sendErr t = Ret (e', false, Some (ErrUpdatingEvent er)) t')
       ∧ (∀ i, ∃ t', emitBulk_event o true e i t = Ret i t'
            ∧ store t' = (Update e' (store t)).2
            ∧ entries (store t') = entries (store t)
            ∧ last (logs t') = Some (LogPrintln (ErrUpdatingEvent er)))
       ∧ (∀ i serr t0, send o (Event e) t0 = Ret (Some serr) t →
            ∃ t', emit_event o e i t0 = Ret i t'
            ∧ store t' = (Update e' (store t)).2
            ∧ entries (store t') = entries (store t)
            ∧ last (logs t') = Some (LogPrintln (ErrUpdatingEvent er)))).
Proof.
  split.
  - intros e rest er Hq Hv Hset.
    unfold run_iteration. rewrite Hq. unfold case_event, admit_event.
    rewrite Hv. run. rewrite Hset. run.
    eexists. split; [done|]. split_and!; try done.
    cbn. apply Set_failed. by rewrite Hset.
  - intros e er e' Hx Hup.
    assert (entries (Update e' (store t)).2 = entries (store t)) as Hent.
    { apply Update_failed. by rewrite Hup. }
    split_and!.
    + intros sendErr. unfold sendFailed. run. fold e'. rewrite Hx.
      destruct (Debug o); run; rewrite Hup; run; eauto.
    + intros i. unfold emitBulk_event, sendFailed. run. fold e'. rewrite Hx.
      destruct (Debug o); run; rewrite Hup; run;
        (eexists; split; [done|]; cbn; split_and!; [done|done|]);
        by rewrite last_snoc.
    + intros i serr t0 Es. unfold emit_event. erewrite bind_Ret by exact Es.
      unfold sendFailed. run. fold e'. rewrite Hx.
      destruct (Debug o); run; rewrite Hup; run;
        (eexists; split; [done|]; cbn; split_and!; [done|done|]);
        by rewrite last_snoc.
Qed.

(** *** The request of [emitBulk] *)

Lemma emitBulk_post_returns start evts (t : State S) :
  let a := net t (length (sent t)) (batch evts) in
  bulk_safe o a →
  ∃ t', emitBulk_post o start evts t = Ret (negb (delivered a)) t'
        ∧ requested (batch evts) t t'.
Proof.
  intros a Hsafe. unfold emitBulk_post. run. fold (batch evts). fold a.
  unfold delivered, status, logDebug, since_ms.
  destruct Hsafe as [[r Hr]|[Hd [er Her]]].
  - rewrite Hr. destruct (err a) as [er|]; run;
      destruct (Debug o); run;
      destruct (299 <? default 0 (RawResponse r)); run;
      eexists; (split; [done|]); by repeat split.
  - rewrite Her, Hd. run. eexists. split; [done|]. by repeat split.
Qed.

Lemma emitBulk_post_nil start evts (t : State S) :
  let a := net t (length (sent t)) (batch evts) in
  resp a = None → Debug o = true ∨ err a = None →
  emitBulk_post o start evts t = Panic NilDereference.
Proof.
  intros a Hr Hcase. unfold emitBulk_post. run. fold (batch evts). fold a.
  rewrite Hr. destruct (err a) as [er|]; run; [|done].
  destruct Hcase as [Hd|?]; [|done]. rewrite Hd. run. done.
Qed.

(** *** The snapshot of a store *)

Lemma snapshot_live (s : S) e :
  (GetAll s).2 = None → e ∈ (GetAll s).1 → entries s !! ID e = Some e.
Proof.
  intros Hok He. rewrite (GetAll_entries s Hok) in He.
  apply list_elem_of_fmap in He as ([k e'] & -> & Hke).
  apply elem_of_map_to_list in Hke. cbn.
  by rewrite (entries_ID _ _ _ Hke).
Qed.

Lemma snapshot_NoDup (s : S) : (GetAll s).2 = None → NoDup (ID <$> (GetAll s).1).
Proof.
  intros Hok. rewrite (GetAll_entries s Hok).
  replace (ID <$> (map_to_list (entries s)).*2) with (map_to_list (entries s)).*1.
  { apply NoDup_fst_map_to_list. }
  rewrite <-list_fmap_compose. apply list_fmap_ext.
  intros i [k e] Hke. apply list_elem_of_lookup_2, elem_of_map_to_list in Hke. cbn.
  by rewrite (entries_ID _ _ _ Hke).
Qed.

(** *** The loops over a snapshot, on a store that does not fail *)

Section OnDependable.
Context `{!Dependable S}.

Lemma bulk_range_delivered evts i (t : State S) :
  ∃ t', range (emitBulk_event o false) evts i t
          = Ret (i + Z.of_nat (length evts)) t'
        ∧ now t' = now t ∧ sent t' = sent t ∧ same_channels t t'
        ∧ (∀ k, k ∈ ID <$> evts → entries (store t') !! k = None)
        ∧ (∀ k, k ∉ ID <$> evts →
             entries (store t') !! k = entries (store t) !! k).
Proof.
  revert i t. induction evts as [|e evts IH]; intros i t; cbn.
  - run. eexists. split_and!; try done.
    + by rewrite Z.add_0_r.
    + intros k Hk. by apply elem_of_nil in Hk.
  - destruct (emitBulk_event_delivered e i t) as (t1 & E1 & Hs1 & Hn1 & Hq1 & Hc1).
    erewrite bind_Ret by exact E1.
    destruct (IH (i + 1) t1) as (t' & E & Hn & Hq & Hc & Hin & Hout).
    exists t'. split_and!.
    + rewrite E. f_equal. lia.
    + congruence.
    + congruence.
    + by etrans.
    + intros k Hk.
      destruct (decide (k ∈ ID <$> evts)) as [?|Hnot]; [by apply Hin|].
      rewrite (Hout k Hnot), Hs1, (Remove_done _ _ (Remove_succeeds e (store t))).
      apply elem_of_cons in Hk as [->|?]; [apply lookup_delete_eq | done].
    + intros k Hk. apply not_elem_of_cons in Hk as [Hne Hnot].
      rewrite (Hout k Hnot), Hs1, (Remove_done _ _ (Remove_succeeds e (store t))).
      by rewrite lookup_delete_ne.
Qed.

Lemma failure_entries e (t : State S) :
  let e' := mark_attempt e (now t) in
  is_Some (entries (store t) !! ID e) →
  entries (if exhausted o e' then (Remove e' (store t)).2
           else (Update e' (store t)).2)
  = match kept_for_retry o (now t) e with
    | Some e' => <[ID e := e']> (entries (store t))
    | None => delete (ID e) (entries (store t))
    end.
Proof.
  intros e' Hlive. unfold kept_for_retry. fold e'.
  destruct (exhausted o e').
  - by rewrite (Remove_done _ _ (Remove_succeeds e' (store t))).
  - by destruct (Update_done e' (store t) (Update_succeeds e' (store t) Hlive))
      as [_ ->].
Qed.

Lemma bulk_range_failed evts i (t : State S) :
  NoDup (ID <$> evts) →
  (∀ e, e ∈ evts → is_Some (entries (store t) !! ID e)) →
  ∃ t', range (emitBulk_event o true) evts i t = Ret i t'
        ∧ now t' = now t ∧ sent t' = sent t ∧ same_channels t t'
        ∧ (∀ e, e ∈ evts →
             entries (store t') !! ID e = kept_for_retry o (now t) e)
        ∧ (∀ k, k ∉ ID <$> evts →
             entries (store t') !! k = entries (store t) !! k).
Proof.
  revert i t. induction evts as [|e evts IH]; intros i t Hnd Hlive; cbn.
  - run. eexists. split_and!; try done.
    intros e He. by apply elem_of_nil in He.
  - cbn in Hnd. apply NoDup_cons in Hnd as [Hhead Hnd].
    destruct (emitBulk_event_failed e i t) as (t1 & E1 & Hs1 & Hn1 & Hq1 & Hc1).
    erewrite bind_Ret by exact E1.
    assert (entries (store t1)
            = match kept_for_retry o (now t) e with
              | Some e' => <[ID e := e']> (entries (store t))
              | None => delete (ID e) (entries (store t))
              end) as Hent.
    { rewrite Hs1. apply failure_entries. apply Hlive. by left. }
    assert (∀ k, k ≠ ID e → entries (store t1) !! k = entries (store t) !! k)
      as Hframe.
    { intros k Hk. rewrite Hent.
      destruct (kept_for_retry o (now t) e);
        [by rewrite lookup_insert_ne | by rewrite lookup_delete_ne]. }
    destruct (IH i t1 Hnd) as (t' & E & Hn & Hq & Hc & Hin & Hout).
    { intros e2 He2. rewrite Hframe; [apply Hlive; by right|].
      intros Heq. apply Hhead. rewrite <-Heq. by apply list_elem_of_fmap_2. }
    exists t'. split_and!; [done | congruence | congruence | by etrans | |].
    + intros e2 He2. apply elem_of_cons in He2 as [->|He2].
      * rewrite (Hout _ Hhead), Hent.
        destruct (kept_for_retry o (now t) e);
          [by rewrite lookup_insert_eq | by rewrite lookup_delete_eq].
      * rewrite (Hin e2 He2). by rewrite Hn1.
    + intros k Hk. apply not_elem_of_cons in Hk as [Hne Hnot].
      by rewrite (Hout k Hnot), Hframe.
Qed.

Lemma replies_cons net n e evts :
  deliveries net n (e :: evts)
  = (if delivered (net n (single e)) then 1 else 0)
    + deliveries net (Datatypes.S n) evts.
Proof.
  unfold deliveries. cbn [replies]. rewrite filter_cons.
  destruct (delivered (net n (single e))); case_decide; try done; cbn [length]; lia.
Qed.

Lemma emit_range evts i (t : State S) :
  answers t → NoDup (ID <$> evts) →
  ∃ t', range (emit_event o) evts i t
          = Ret (i + deliveries (net t) (length (sent t)) evts) t'
        ∧ sent t' = sent t ++ (single <$> evts) ∧ same_channels t t'
        ∧ (∀ k e, evts !! k = Some e →
             delivered (net t (length (sent t) + k)%nat (single e)) = true →
             entries (store t') !! ID e = None)
        ∧ (∀ k, k ∉ ID <$> evts →
             entries (store t') !! k = entries (store t) !! k).
Proof.
  revert i t. induction evts as [|e evts IH]; intros i t Hans Hnd; cbn [range].
  - run. eexists. split_and!; try done.
    + unfold deliveries. cbn. by rewrite Z.add_0_r.
    + by rewrite app_nil_r.
  - cbn in Hnd. apply NoDup_cons in Hnd as [Hhead Hnd].
    pose (a := net t (length (sent t)) (single e)).
    destruct (send_answered (Event e) t (Hans _ _))
      as (t0 & Es & Hs0 & Hq0 & Hn0 & Hnet0 & Hcl0 & Hqq0).
    fold (single e) in Es, Hq0, Hn0. fold a in Es.
    assert (∃ t1, emit_event o e i t
                  = Ret (i + if delivered a then 1 else 0) t1
                  ∧ sent t1 = sent t ++ [single e] ∧ same_channels t t1
                  ∧ (delivered a = true → entries (store t1) !! ID e = None)
                  ∧ touches_only (ID e) t t1)
      as (t1 & E1 & Hq1 & Hc1 & Hdel & Hframe).
    { destruct (if 299 <? status a then Some (ErrStatusCode (status a))
                else err a) as [serr|] eqn:Hres.
      - assert (delivered a = false) as Hd.
        { apply not_true_is_false. rewrite <-send_result_delivered. by rewrite Hres. }
        destruct (emit_event_failed e i serr t t0 Es) as (t1 & E1 & ? & ? & Hq1 & Hc1).
        exists t1. rewrite Hd, Z.add_0_r. split_and!; [done | congruence | | done |].
        + destruct Hc1 as (?&?&?). repeat split; congruence.
        + by apply (loop_body_touches None e i) in E1 as [? _].
      - assert (delivered a = true) as Hd.
        { rewrite <-send_result_delivered. by rewrite Hres. }
        destruct (emit_event_delivered e i t t0 Es) as (t1 & E1 & Hs1 & ? & Hq1 & Hc1).
        exists t1. rewrite Hd. split_and!; [done | congruence | | |].
        + destruct Hc1 as (?&?&?). repeat split; congruence.
        + intros _. rewrite Hs1, (Remove_done _ _ (Remove_succeeds e (store t0))).
          apply lookup_delete_eq.
        + by apply (loop_body_touches None e i) in E1 as [? _]. }
    erewrite bind_Ret by exact E1.
    destruct Hc1 as (Hcl1 & Hqq1 & Hnet1).
    destruct (IH (i + if delivered a then 1 else 0) t1) as (t' & E & Hq & Hc & Hin & Hout).
    { intros n r. rewrite Hnet1. apply Hans. }
    { done. }
    exists t'. rewrite Hq1, Hnet1 in E. rewrite length_app in E. cbn in E.
    replace (length (sent t) + 1)%nat with (Datatypes.S (length (sent t))) in E by lia.
    split_and!.
    + rewrite E, replies_cons. fold a. f_equal. lia.
    + rewrite Hq, Hq1. by rewrite <-app_assoc.
    + etrans; [|done]. done.
    + intros k e2 Hk Hd. destruct k as [|k]; cbn in Hk.
      * simplify_eq. rewrite Nat.add_0_r in Hd. rewrite (Hout _ Hhead).
        by apply Hdel.
      * apply (Hin k e2 Hk). rewrite Hnet1, Hq1, length_app. cbn.
        by replace (length (sent t) + 1 + k)%nat
          with (length (sent t) + Datatypes.S k)%nat by lia.
    + intros k Hk. apply not_elem_of_cons in Hk as [Hne Hnot].
      rewrite (Hout k Hnot). by apply Hframe.
Qed.

Lemma emitBulk_returns (t : State S) :
  let evts := (GetAll (store t)).1 in
  let a := net t (length (sent t)) (batch evts) in
  bulk_safe o a →
  ∃ t', emitBulk o t
          = Ret (if delivered a then Z.of_nat (length evts) else 0, None) t'
    ∧ sent t' = sent t ++ [batch evts]
    ∧ (delivered a = true →
         ∀ e, e ∈ evts → entries (store t') !! ID e = None)
    ∧ (delivered a = false →
         ∀ e, e ∈ evts →
           entries (store t') !! ID e = kept_for_retry o (now t + took a) e).
Proof.
  intros evts a Hsafe.
  pose proof (GetAll_succeeds (store t)) as Hok.
  pose proof (snapshot_NoDup (store t) Hok) as Hnd.
  pose proof (λ e, snapshot_live (store t) e Hok) as Hlive.
  fold evts in Hnd, Hlive.
  assert (GetAll (store t) = (evts, None)) as HG.
  { unfold evts. destruct (GetAll (store t)) as [l er]. cbn in *. by subst. }
  unfold emitBulk. run. rewrite HG.
  destruct (emitBulk_post_returns (now t) evts t Hsafe)
    as (t1 & E1 & Hs1 & Hq1 & Hn1 & Hnet1 & _).
  fold a in E1, Hn1. rewrite E1.
  destruct (delivered a) eqn:Hd; cbn.
  - destruct (bulk_range_delivered evts 0 t1) as (t' & E & Hn & Hq & Hc & Hin & _).
    rewrite E. cbn. eexists. split_and!; [done | congruence | | done].
    intros _ e He. apply Hin. by apply list_elem_of_fmap_2.
  - destruct (bulk_range_failed evts 0 t1 Hnd) as (t' & E & Hn & Hq & Hc & Hin & _).
    { intros e He. rewrite Hs1. rewrite (Hlive e He). eauto. }
    rewrite E. cbn. eexists. split_and!; [done | congruence | done |].
    intros _ e He. rewrite (Hin e He). by rewrite Hn1.
Qed.

(** C3.  In bulk mode one request carries the whole snapshot: its body is
    the payloads joined by a newline.  When it is answered without a
    transport error and with a status code of at most 299, every event of
    the snapshot is removed from the store and counted.  Otherwise each
    event of the snapshot goes through the retry policy once, for itself:
    its entry is gone if its own new count is over the budget, and else
    holds the event with one more attempt; none is counted. *)
Theorem emitBulk_all_or_nothing (t : State S) :
  let evts := (GetAll (store t)).1 in
  let a := net t (length (sent t)) (batch evts) in
  bulk_safe o a →
  (Bulk o = true → Count (store t) ≠ 0 → emit o t = emitBulk o t)
  ∧ ∃ t', emitBulk o t
            = Ret (if delivered a then Z.of_nat (length evts) else 0, None) t'
      ∧ sent t' = sent t ++ [batch evts]
      ∧ (delivered a = true →
           ∀ e, e ∈ evts → entries (store t') !! ID e = None)
      ∧ (delivered a = false →
           ∀ e, e ∈ evts →
             entries (store t') !! ID e = kept_for_retry o (now t + took a) e
             ∧ ∀ e', entries (store t') !! ID e = Some e' →
                 Attempts e' = wrap (Attempts e + 1)
                 ∧ (int_min ≤ Attempts e < int_max →
                    Attempts e' = Attempts e + 1)).
Proof.
  intros evts a Hsafe. split.
  - intros Hb Hc. unfold emit. run. rewrite Hb.
    by destruct (Count (store t) =? 0) eqn:Hz; [apply Z.eqb_eq in Hz|].
  - destruct (emitBulk_returns t Hsafe) as (t' & E & Hq & Hdel & Hfail).
    fold evts a in E, Hq, Hdel, Hfail.
    exists t'. split_and!; try done.
    intros Hd e He. rewrite (Hfail Hd e He). split; [done|].
    intros e' Hk. unfold kept_for_retry in Hk.
    destruct (exhausted o _); simplify_eq.
    split; [done|]. apply mark_attempt_counts.
Qed.

(** C4.  [emit] returns the number of events whose delivery was confirmed
    in this flush, each of which was in the store before and is not after.
    Per event, these are the events of the snapshot whose own request was
    answered without error and with a status code of at most 299; in bulk
    mode, all of the snapshot when the one request was, and none otherwise;
    on an empty store, none. *)
Theorem emit_returns_deliveries (t : State S) :
  let evts := (GetAll (store t)).1 in
  (Count (store t) = 0 → emit o t = Ret (0, None) t)
  ∧ (Count (store t) ≠ 0 → Bulk o = false → answers t →
       ∃ t', emit o t
               = Ret (deliveries (net t) (length (sent t)) evts, None) t'
         ∧ ∀ k e, evts !! k = Some e →
             delivered (net t (length (sent t) + k)%nat (single e)) = true →
             entries (store t) !! ID e = Some e
             ∧ entries (store t') !! ID e = None)
  ∧ (Count (store t) ≠ 0 → Bulk o = true →
       bulk_safe o (net t (length (sent t)) (batch evts)) →
       ∃ t', emit o t
               = Ret (if delivered (net t (length (sent t)) (batch evts))
                      then Z.of_nat (length evts) else 0, None) t'
         ∧ (delivered (net t (length (sent t)) (batch evts)) = true →
              ∀ e, e ∈ evts →
                entries (store t) !! ID e = Some e
                ∧ entries (store t') !! ID e = None)).
Proof.
  intros evts.
  pose proof (GetAll_succeeds (store t)) as Hok.
  pose proof (snapshot_NoDup (store t) Hok) as Hnd.
  pose proof (λ e, snapshot_live (store t) e Hok) as Hlive.
  fold evts in Hnd, Hlive.
  assert (GetAll (store t) = (evts, None)) as HG.
  { unfold evts. destruct (GetAll (store t)) as [l er]. cbn in *. by subst. }
  split_and!.
  - intros Hc. unfold emit. run. by rewrite Hc.
  - intros Hc Hb Hans. unfold emit. run. rewrite Hb.
    destruct (Count (store t) =? 0) eqn:Hz; [by apply Z.eqb_eq in Hz|].
    rewrite HG.
    destruct (emit_range evts 0 t Hans Hnd) as (t' & E & _ & _ & Hin & _).
    rewrite E. cbn. eexists. split; [done|].
    intros k e Hk Hd. split; [|by eapply Hin].
    apply Hlive. by eapply list_elem_of_lookup_2.
  - intros Hc Hb Hsafe.
    destruct (emitBulk_returns t Hsafe) as (t' & E & _ & Hdel & _).
    fold evts in E, Hdel. exists t'. split.
    + unfold emit. run. rewrite Hb.
      by destruct (Count (store t) =? 0) eqn:Hz; [apply Z.eqb_eq in Hz|].
    + intros Hd e He. split; [by apply Hlive | by apply Hdel].
Qed.

End OnDependable.

(** *** A flush in steps is the flush *)

Lemma finish_range_range bulk evts i (t : State S) :
  finish_range o bulk evts i t
  = (i ← range (loop_body o bulk) evts i; Flush_report o (i, None)) t.
Proof.
  revert i t. induction evts as [|e evts IH]; intros i t; cbn.
  - done.
  - run. destruct (loop_body o bulk e i t) as [i' t'|]; [|done]. apply IH.
Qed.

Lemma Flush_in_steps_agrees (t : State S) : Flush_in_steps o t = Flush o t.
Proof.
  unfold Flush_in_steps, Flush, emit, emitBulk, Flush_step. run.
  destruct (Count (store t) =? 0).
  { run. by destruct (Flush_report o (0, None) t). }
  destruct (Bulk o); run.
  - destruct (GetAll (store t)) as [evts [er|]]; run.
    { by destruct (Flush_report o (0, Some er) t). }
    destruct (emitBulk_post o (now t) evts t) as [failed t1|]; [|done]. cbn.
    rewrite finish_range_range. run. cbn.
    by destruct (range (emitBulk_event o failed) evts 0 t1).
  - destruct (GetAll (store t)) as [evts [er|]]; run.
    { by destruct (Flush_report o (0, Some er) t). }
    rewrite finish_range_range. run. cbn.
    by destruct (range (emit_event o) evts 0 t).
Qed.

(** *** The budget along the moves of the goroutines *)

Section Budget.
Hypothesis Hmax : 0 < MaxRetries o.

Lemma Flush_budget : keeps budget_step (λ _, True) (Flush o).
Proof.
  apply (Flush_keeps budget_step (λ _, True)); try done.
  - apply passive_budget.
  - intros e t _. by apply Update_budget.
  - intros e t _. apply Remove_budget.
Qed.

Lemma Flush_step_budget f : keeps budget_step (λ _, True) (Flush_step o f).
Proof.
  apply (Flush_step_keeps budget_step (λ _, True)); try done.
  - apply passive_budget.
  - intros e t _. by apply Update_budget.
  - intros e t _. apply Remove_budget.
Qed.

Lemma admit_event_budget ev : keeps budget_step (λ _, True) (admit_event o ev).
Proof.
  apply (admit_event_keeps budget_step); [apply passive_budget|].
  intros. by apply Set_budget.
Qed.

Lemma run_iteration_budget c (t t' : State S) r :
  run_iteration o c t = Some (Ret r t') → budget_step t t'.
Proof.
  destruct c; cbn.
  - destruct (q t) as [|e rest] eqn:Hq; [done|]. intros E. simplify_eq.
    apply (case_event_keeps budget_step (λ _, True)) in E as [Hb _]; try done.
    + apply passive_budget.
    + intros e' t1 _. by apply Update_budget.
    + intros e' t1 _. apply Remove_budget.
    + intros. by apply Set_budget.
  - intros E. simplify_eq.
    apply (case_tick_keeps budget_step (λ _, True)) in E as [Hb _]; try done.
    + apply passive_budget.
    + intros e' t1 _. by apply Update_budget.
    + intros e' t1 _. apply Remove_budget.
  - destruct (cl t); intros E; by simplify_eq.
Qed.

Lemma loop_receives_budget e y y' :
  loop_receives o e y = Next y' → budget_step (machine y) (machine y').
Proof.
  unfold loop_receives. destruct (loop y); try done.
  destruct (admit_event o e (machine y)) as [due t'|] eqn:E; [|done].
  intros ?. simplify_eq. cbn. by apply admit_event_budget in E as [? _].
Qed.

Lemma move_budget m y y' :
  move o m y = Next y' → budget_step (machine y) (machine y').
Proof.
  destruct m as [c|n| |n e|n|n|n|n]; cbn.
  - destruct (loop y); try done. destruct c.
    + destruct (q (machine y)) as [|e rest]; [done|].
      intros E. by apply loop_receives_budget in E.
    + intros ?. simplify_eq. by unfold budget_kept.
    + destruct (cl (machine y)); intros ?; simplify_eq; by unfold budget_kept.
  - destruct (callers y !! n) as [[|e|f]|]; try done.
    destruct (q (machine y)); [|done].
    intros E. by apply loop_receives_budget in E.
  - destruct (loop y) as [|f|]; try done.
    destruct (Flush_step o f (machine y)) as [f' t'|] eqn:E; [|done].
    intros ?. simplify_eq. cbn. by apply Flush_step_budget in E as [? _].
  - destruct (callers y !! n) as [[|e'|f]|]; try done.
    destruct (has_room o (machine y)); intros ?; simplify_eq; by unfold budget_kept.
  - destruct (callers y !! n) as [[|e'|f]|]; try done.
    destruct (has_room o (machine y)); intros ?; simplify_eq; by unfold budget_kept.
  - destruct (callers y !! n) as [[|e'|f]|]; try done.
    intros ?; simplify_eq; by unfold budget_kept.
  - destruct (callers y !! n) as [[|e'|f]|]; try done.
    unfold close_cl. destruct (cl (machine y)); [done|].
    intros ?; simplify_eq; by unfold budget_kept.
  - destruct (callers y !! n) as [[|e'|f]|]; try done.
    destruct (Flush_step o f (machine y)) as [f' t'|] eqn:E; [|done].
    intros ?. simplify_eq. cbn. by apply Flush_step_budget in E as [? _].
Qed.

Lemma play_budget ms y y' :
  play o ms y = Next y' → budget_step (machine y) (machine y').
Proof.
  revert y. induction ms as [|m ms IH]; intros y; cbn.
  - intros ?. by simplify_eq.
  - destruct (move o m y) as [y1| |] eqn:E; try done.
    intros E'. etrans; [by eapply move_budget | by apply IH].
Qed.

End Budget.

(** C2.  With [MaxRetries > 0], once every stored event has an attempts
    count of at most [MaxRetries], it stays so: after any moves of the loop
    and of the callers, in any interleaving and between any two steps of a
    flush, and after each whole iteration of the loop and each whole
    [Flush].  And the failed attempt that takes the count of an event above
    [MaxRetries] ends, in either loop, with the entry of the event removed
    from the store. *)
Theorem attempts_within_budget :
  0 < MaxRetries o →
  (∀ ms y y',
     within_budget o (store (machine y)) → play o ms y = Next y' →
     within_budget o (store (machine y')))
  ∧ (∀ c t t' r,
       within_budget o (store t) → run_iteration o c t = Some (Ret r t') →
       within_budget o (store t'))
  ∧ (∀ t t',
       within_budget o (store t) → Flush o t = Ret () t' →
       within_budget o (store t'))
  ∧ (∀ e i t,
       let e' := mark_attempt e (now t) in
       MaxRetries o < Attempts e' → (Remove e' (store t)).1 = None →
       (∃ t', emitBulk_event o true e i t = Ret i t'
              ∧ entries (store t') !! ID e = None)
       ∧ (∀ serr t0, send o (Event e) t0 = Ret (Some serr) t →
            ∃ t', emit_event o e i t0 = Ret i t'
                  ∧ entries (store t') !! ID e = None)).
Proof.
  intros Hmax. split_and!.
  - intros ms y y' Hb E. exact (play_budget Hmax _ _ _ E Hb).
  - intros c t t' r Hb E. exact (run_iteration_budget Hmax _ _ _ _ E Hb).
  - intros t t' Hb E. exact (proj1 (Flush_budget Hmax _ _ _ E) Hb).
  - intros e i t e' Hover Hok.
    assert (exhausted o e' = true) as Hx by by apply exhausted_iff.
    assert (entries (Remove e' (store t)).2 !! ID e = None) as Hgone.
    { rewrite (Remove_done _ _ Hok). apply lookup_delete_eq. }
    split.
    + destruct (emitBulk_event_failed e i t) as (t' & E & Hs & _).
      fold e' in Hs. rewrite Hx in Hs. exists t'. by rewrite Hs.
    + intros serr t0 Es.
      destruct (emit_event_failed e i serr t0 t Es) as (t' & E & Hs & _).
      fold e' in Hs. rewrite Hx in Hs. exists t'. by rewrite Hs.
Qed.

(** *** Flushes under way *)

Lemma no_flushing_length (l : list CallerAt) :
  Forall (λ c, is_flushing c = false) l →
  length (filter (λ c, is_flushing c = true) l) = 0%nat.
Proof.
  induction 1 as [|c l Hc _ IH]; [done|].
  rewrite filter_cons. case_decide; [congruence | done].
Qed.

Lemma enter_flush_length (l : list CallerAt) n c f :
  l !! n = Some c → is_flushing c = false →
  length (filter (λ c, is_flushing c = true) (<[n := CallerFlushing f]> l))
  = Datatypes.S (length (filter (λ c, is_flushing c = true) l)).
Proof.
  revert n. induction l as [|c' l IH]; intros n Hn Hc; [done|].
  destruct n as [|n].
  - cbn in Hn. simplify_eq.
    change (<[0%nat := CallerFlushing f]> (c :: l)) with (CallerFlushing f :: l).
    rewrite !filter_cons. cbn [is_flushing]. case_decide; [|done].
    case_decide; [congruence | done].
  - cbn in Hn.
    change (<[Datatypes.S n := CallerFlushing f]> (c' :: l))
      with (c' :: <[n := CallerFlushing f]> l).
    rewrite !filter_cons. case_decide; cbn [length]; by rewrite (IH n).
Qed.

Lemma loop_receives_callers e y y' :
  loop_receives o e y = Next y' → callers y' = callers y.
Proof.
  unfold loop_receives. destruct (loop y); try done.
  destruct (admit_event o e (machine y)); [|done]. intros ?. by simplify_eq.
Qed.

Lemma move_only_queues m y y' :
  only_queues m = true →
  Forall (λ c, is_flushing c = false) (callers y) →
  move o m y = Next y' →
  Forall (λ c, is_flushing c = false) (callers y').
Proof.
  intros Hm Hy. destruct m as [c|n| |n e|n|n|n|n]; try done; cbn.
  - destruct (loop y); try done. destruct c.
    + destruct (q (machine y)); [done|].
      intros E. apply loop_receives_callers in E. by rewrite E.
    + intros ?. by simplify_eq.
    + destruct (cl (machine y)); intros ?; by simplify_eq.
  - destruct (callers y !! n) as [[|e|f]|]; try done.
    destruct (q (machine y)); [|done].
    intros E. apply loop_receives_callers in E. rewrite E. cbn.
    by apply Forall_insert.
  - destruct (loop y) as [|f|]; try done.
    destruct (Flush_step o f (machine y)); [|done]. intros ?. by simplify_eq.
  - destruct (callers y !! n) as [[|e'|f]|]; try done.
    destruct (has_room o (machine y)); intros ?; simplify_eq; cbn; [done|].
    by apply Forall_insert.
  - destruct (callers y !! n) as [[|e'|f]|]; try done.
    destruct (has_room o (machine y)); intros ?; simplify_eq; cbn.
    by apply Forall_insert.
Qed.

Lemma play_only_queues ms y y' :
  Forall (λ m, only_queues m = true) ms →
  Forall (λ c, is_flushing c = false) (callers y) →
  play o ms y = Next y' →
  Forall (λ c, is_flushing c = false) (callers y').
Proof.
  intros Hms. revert y. induction Hms as [|m ms Hm _ IH]; intros y Hy; cbn.
  - intros ?. by simplify_eq.
  - destruct (move o m y) as [y1| |] eqn:E; try done.
    apply IH. by eapply move_only_queues.
Qed.

(** C9, as the code has it.  The loop of [run] takes a case of its [select]
    only when it is at the [select]: while it is in a flush, a tick, an
    event or the shutdown signal waits.  Handing over an event does not
    touch the store.  So as long as the application only queues events, no
    caller is in a flush, at most one flush is under way, and it is the
    loop's.  [Flush] however, called by the application, starts a flush on
    the caller's goroutine whatever the loop is doing: one more flush is
    under way. *)
Theorem loop_flushes_one_at_a_time :
  (∀ c y, loop y ≠ AtSelect → move o (LoopTakes c) y = Stuck)
  ∧ (∀ n y, loop y ≠ AtSelect → move o (LoopMeets n) y = Stuck)
  ∧ (∀ m y y',
       only_queues m = true → by_loop m = false → move o m y = Next y' →
       store (machine y') = store (machine y) ∧ loop y' = loop y)
  ∧ (∀ ms y y',
       Forall (λ m, only_queues m = true) ms →
       Forall (λ c, is_flushing c = false) (callers y) →
       play o ms y = Next y' →
       Forall (λ c, is_flushing c = false) (callers y')
       ∧ (flushes_in_flight y' ≤ 1)%nat)
  ∧ (∀ n y,
       callers y !! n = Some Outside →
       ∃ y', move o (CallerFlushes n) y = Next y'
             ∧ flushes_in_flight y' = Datatypes.S (flushes_in_flight y)
             ∧ loop y' = loop y ∧ machine y' = machine y).
Proof.
  split_and!.
  - intros c y Hl. cbn. by destruct (loop y).
  - intros n y Hl. cbn. unfold loop_receives.
    destruct (callers y !! n) as [[|e|f]|]; try done.
    destruct (q (machine y)); [|done]. cbn. by destruct (loop y).
  - intros m y y' Hm Hl. destruct m as [c|n| |n e|n|n|n|n]; try done; cbn.
    + destruct (callers y !! n) as [[|e'|f]|]; try done.
      destruct (has_room o (machine y)); intros ?; by simplify_eq.
    + destruct (callers y !! n) as [[|e'|f]|]; try done.
      destruct (has_room o (machine y)); intros ?; by simplify_eq.
  - intros ms y y' Hms Hy E.
    pose proof (play_only_queues ms y y' Hms Hy E) as Hy'.
    split; [done|]. unfold flushes_in_flight.
    rewrite (no_flushing_length _ Hy'). unfold loop_flushes.
    destruct (loop y'); lia.
  - intros n y Hn. cbn. rewrite Hn. eexists. split; [done|].
    split_and!; try done.
    unfold flushes_in_flight. cbn.
    by rewrite (enter_flush_length _ _ Outside).
Qed.

Lemma emit_on_empty (t : State S) :
  Count (store t) = 0 → emit o t = Ret (0, None) t.
Proof. intros Hc. unfold emit. run. by rewrite Hc. Qed.

(** *** More about [send] and the per-event loop, on any store *)

(** X1.  When the HTTP client hands back a response object, [send] issues
    exactly one request, which carries the payload, leaves the store alone
    and returns: a status error when the status code is above 299, whatever
    the transport said, and else the transport's error, so [nil] exactly
    when there was no transport error and the status code is at most 299. *)
Theorem send_classifies e (t : State S) :
  let r := {| multipart := false; payload := e |} in
  let a := net t (length (sent t)) r in
  is_Some (resp a) →
  ∃ res t', send o e t = Ret res t'
    ∧ (res = None ↔ err a = None ∧ status a ≤ 299)
    ∧ (299 < status a → res = Some (ErrStatusCode (status a)))
    ∧ (status a ≤ 299 → res = err a)
    ∧ store t' = store t ∧ sent t' = sent t ++ [r] ∧ same_channels t t'.
Proof.
  intros r a Hr.
  destruct (send_answered e t Hr) as (t' & E & Hs & Hq & _ & Hnet & Hcl & Hqq).
  fold r a in E, Hq. eexists _, t'. split; [exact E|].
  destruct (299 <? status a) eqn:Hst.
  - apply Z.ltb_lt in Hst. split_and!; try done; try lia.
    split; [done | lia].
  - apply Z.ltb_ge in Hst. split_and!; try done; try lia.
    split; [by intros -> | by intros [-> _]].
Qed.

Lemma emit_event_answered e i (t : State S) :
  let a := net t (length (sent t)) (single e) in
  is_Some (resp a) →
  ∃ t', emit_event o e i t = Ret (i + if delivered a then 1 else 0) t'
        ∧ sent t' = sent t ++ [single e] ∧ same_channels t t'.
Proof.
  intros a Hr.
  destruct (send_answered (Event e) t Hr)
    as (t0 & Es & Hs0 & Hq0 & Hn0 & Hnet0 & Hcl0 & Hqq0).
  fold (single e) in Es, Hq0. fold a in Es.
  destruct (if 299 <? status a then Some (ErrStatusCode (status a))
            else err a) as [serr|] eqn:Hres.
  - assert (delivered a = false) as Hd.
    { apply not_true_is_false. rewrite <-send_result_delivered. by rewrite Hres. }
    destruct (emit_event_failed e i serr t t0 Es) as (t1 & E1 & _ & _ & Hq1 & Hc1).
    exists t1. rewrite Hd, Z.add_0_r. split_and!; [done | congruence |].
    destruct Hc1 as (?&?&?). repeat split; congruence.
  - assert (delivered a = true) as Hd.
    { rewrite <-send_result_delivered. by rewrite Hres. }
    destruct (emit_event_delivered e i t t0 Es) as (t1 & E1 & _ & _ & Hq1 & Hc1).
    exists t1. rewrite Hd. split_and!; [done | congruence |].
    destruct Hc1 as (?&?&?). repeat split; congruence.
Qed.

Lemma emit_event_nil e i (t : State S) :
  resp (net t (length (sent t)) (single e)) = None →
  emit_event o e i t = Panic NilDereference.
Proof. intros Hr. unfold emit_event. apply bind_Panic. by apply send_nil. Qed.

Lemma emit_range_requests evts i (t : State S) :
  (∀ k e, evts !! k = Some e →
     is_Some (resp (net t (length (sent t) + k)%nat (single e)))) →
  ∃ t', range (emit_event o) evts i t
          = Ret (i + deliveries (net t) (length (sent t)) evts) t'
        ∧ sent t' = sent t ++ (single <$> evts) ∧ same_channels t t'.
Proof.
  revert i t. induction evts as [|e evts IH]; intros i t Hans; cbn [range].
  - run. eexists. split_and!; try done.
    + unfold deliveries. cbn. by rewrite Z.add_0_r.
    + by rewrite app_nil_r.
  - destruct (emit_event_answered e i t) as (t1 & E1 & Hq1 & Hc1).
    { specialize (Hans 0%nat e eq_refl). by rewrite Nat.add_0_r in Hans. }
    erewrite bind_Ret by exact E1.
    pose proof Hc1 as (_ & _ & Hnet1).
    destruct (IH (i + if delivered (net t (length (sent t)) (single e))
                      then 1 else 0) t1) as (t' & E & Hq & Hc).
    { intros k e2 Hk. rewrite Hnet1, Hq1, length_app. cbn.
      replace (length (sent t) + 1 + k)%nat
        with (length (sent t) + Datatypes.S k)%nat by lia.
      by apply Hans. }
    exists t'. rewrite Hq1, Hnet1 in E. rewrite length_app in E. cbn in E.
    replace (length (sent t) + 1)%nat with (Datatypes.S (length (sent t))) in E by lia.
    split_and!.
    + rewrite E, replies_cons. f_equal. lia.
    + rewrite Hq, Hq1. by rewrite <-app_assoc.
    + by etrans.
Qed.

Lemma emit_range_nil evts i (t : State S) j ej :
  evts !! j = Some ej →
  resp (net t (length (sent t) + j)%nat (single ej)) = None →
  range (emit_event o) evts i t = Panic NilDereference.
Proof.
  revert i t j. induction evts as [|e evts IH]; intros i t j Hj Hnil; [done|].
  cbn [range].
  destruct (resp (net t (length (sent t)) (single e))) as [r|] eqn:Hr.
  - destruct (emit_event_answered e i t) as (t1 & E1 & Hq1 & Hc1).
    { rewrite Hr. by eexists. }
    erewrite bind_Ret by exact E1. destruct Hc1 as (_ & _ & Hnet1).
    destruct j as [|j]; cbn in Hj.
    { simplify_eq. rewrite Nat.add_0_r in Hnil. congruence. }
    apply (IH _ t1 j Hj). rewrite Hnet1, Hq1, length_app. cbn.
    by replace (length (sent t) + 1 + j)%nat
      with (length (sent t) + Datatypes.S j)%nat by lia.
  - apply bind_Panic. by apply emit_event_nil.
Qed.

Lemma bulk_range_returns failed evts i (t : State S) :
  ∃ t', range (emitBulk_event o failed) evts i t
          = Ret (if failed then i else i + Z.of_nat (length evts)) t'
        ∧ sent t' = sent t ∧ same_channels t t'.
Proof.
  revert i t. induction evts as [|e evts IH]; intros i t; cbn [range].
  - run. exists t. split_and!; try done. destruct failed; [done|]. cbn.
    by rewrite Z.add_0_r.
  - destruct failed.
    + destruct (emitBulk_event_failed e i t) as (t1 & E1 & _ & _ & Hq1 & Hc1).
      erewrite bind_Ret by exact E1.
      destruct (IH i t1) as (t' & E & Hq & Hc).
      exists t'. split_and!; [done | congruence | by etrans].
    + destruct (emitBulk_event_delivered e i t) as (t1 & E1 & _ & _ & Hq1 & Hc1).
      erewrite bind_Ret by exact E1.
      destruct (IH (i + 1) t1) as (t' & E & Hq & Hc).
      exists t'. split_and!; [|congruence | by etrans].
      rewrite E. f_equal. cbn [length]. lia.
Qed.

Lemma Flush_report_returns r (t : State S) :
  ∃ t', Flush_report o r t = Ret () t'
        ∧ store t' = store t ∧ sent t' = sent t ∧ same_channels t t'
        ∧ logs t' = logs t
                    ++ match r.2 with
                       | Some er => [LogEmitError er]
                       | None => []
                       end
                    ++ (if (0 <? r.1) && Debug o then [LogEmitted r.1] else []).
Proof.
  unfold Flush_report.
  destruct r.2 as [er|]; destruct ((0 <? r.1) && Debug o); run;
    eexists; split_and!; try done; cbn; by rewrite ?app_nil_r, <-?app_assoc.
Qed.

Lemma snapshot_eq (t : State S) :
  (GetAll (store t)).2 = None → GetAll (store t) = ((GetAll (store t)).1, None).
Proof. destruct (GetAll (store t)) as [l er]. cbn. by intros ->. Qed.

Lemma emitBulk_returns_any (t : State S) :
  let evts := (GetAll (store t)).1 in
  let a := net t (length (sent t)) (batch evts) in
  (GetAll (store t)).2 = None → bulk_safe o a →
  ∃ t', emitBulk o t
          = Ret (if delivered a then Z.of_nat (length evts) else 0, None) t'
        ∧ sent t' = sent t ++ [batch evts] ∧ same_channels t t'.
Proof.
  intros evts a Hok Hsafe. unfold emitBulk. run.
  rewrite (snapshot_eq t Hok). fold evts.
  destruct (emitBulk_post_returns (now t) evts t Hsafe)
    as (t1 & E1 & Hs1 & Hq1 & Hn1 & Hnet1 & Hcl1 & Hqq1).
  fold a in E1. rewrite E1.
  destruct (bulk_range_returns (negb (delivered a)) evts 0 t1) as (t' & E & Hq & Hc).
  rewrite E. cbn. exists t'. split_and!.
  - by destruct (delivered a).
  - congruence.
  - etrans; [|done]. done.
Qed.

Lemma emit_nonempty (t : State S) :
  Count (store t) ≠ 0 →
  emit o t = (if Bulk o then emitBulk o
              else '(evts, err) ← get (λ t, GetAll (store t));
                   match err with
                   | Some err => mret (0, Some err)
                   | None => i ← range (emit_event o) evts 0; mret (i, None)
                   end) t.
Proof.
  intros Hc. unfold emit. run.
  by destruct (Count (store t) =? 0) eqn:Hz; [apply Z.eqb_eq in Hz|].
Qed.

(** X3.  In per-event mode, on any store whose snapshot succeeds, and with
    a response object in every reply, [emit] sends each event of the
    snapshot in its own request, in the order of the snapshot, whatever the
    outcome of the others, and returns how many of these requests were
    confirmed: between 0 and the size of the snapshot. *)
Theorem emit_one_request_per_event (t : State S) :
  let evts := (GetAll (store t)).1 in
  Count (store t) ≠ 0 → Bulk o = false → (GetAll (store t)).2 = None →
  (∀ k e, evts !! k = Some e →
     is_Some (resp (net t (length (sent t) + k)%nat (single e)))) →
  ∃ t', emit o t = Ret (deliveries (net t) (length (sent t)) evts, None) t'
        ∧ sent t' = sent t ++ (single <$> evts)
        ∧ same_channels t t'
        ∧ 0 ≤ deliveries (net t) (length (sent t)) evts
            ≤ Z.of_nat (length evts).
Proof.
  intros evts Hc Hb Hok Hans.
  destruct (emit_range_requests evts 0 t Hans) as (t' & E & Hq & Hch).
  exists t'. split_and!; try done.
  - rewrite (emit_nonempty t Hc), Hb. run. rewrite (snapshot_eq t Hok).
    fold evts. by rewrite E.
  - unfold deliveries. lia.
  - unfold deliveries.
    assert (∀ n l, length (replies (net t) n l) = length l) as Hlen.
    { intros n l. revert n. induction l as [|x l IH]; intros n; cbn; [done|].
      by rewrite IH. }
    pose proof (length_filter (λ a, delivered a = true)
                  (replies (net t) (length (sent t)) evts)) as Hf.
    rewrite Hlen in Hf. lia.
Qed.

(** X4.  In per-event mode, a reply without a response object for any event
    of the snapshot makes [emit], and with it [Flush], panic on a nil
    dereference. *)
Theorem emit_panics_on_nil_response (t : State S) j ej :
  let evts := (GetAll (store t)).1 in
  Count (store t) ≠ 0 → Bulk o = false → (GetAll (store t)).2 = None →
  evts !! j = Some ej →
  resp (net t (length (sent t) + j)%nat (single ej)) = None →
  emit o t = Panic NilDereference ∧ Flush o t = Panic NilDereference.
Proof.
  intros evts Hc Hb Hok Hj Hnil.
  assert (emit o t = Panic NilDereference) as E.
  { rewrite (emit_nonempty t Hc), Hb. run. rewrite (snapshot_eq t Hok).
    fold evts. by rewrite (emit_range_nil evts 0 t j ej Hj Hnil). }
  split; [done|]. unfold Flush. by apply bind_Panic.
Qed.

Lemma emit_GetAll_failed (t : State S) er :
  Count (store t) ≠ 0 → (GetAll (store t)).2 = Some er →
  emit o t = Ret (0, Some er) t.
Proof.
  intros Hc Her. rewrite (emit_nonempty t Hc). unfold emitBulk.
  destruct (Bulk o); run; destruct (GetAll (store t)) as [l er'];
    cbn in Her; by subst.
Qed.

(** X5.  When the snapshot of the store fails, in either mode, [emit]
    returns [(0, err)] with the error of [GetAll] in the state it was
    called in: no request is issued and the store is not written.  [Flush]
    logs the error and does nothing else. *)
Theorem emit_snapshot_error (t : State S) er :
  Count (store t) ≠ 0 → (GetAll (store t)).2 = Some er →
  emit o t = Ret (0, Some er) t
  ∧ Flush o t = Ret () (add_log (LogEmitError er) t).
Proof.
  intros Hc Her. pose proof (emit_GetAll_failed t er Hc Her) as E.
  split; [done|]. unfold Flush. erewrite bind_Ret by exact E.
  unfold Flush_report. run. done.
Qed.

(** X6.  In bulk mode, when the HTTP client hands back no response object:
    with [Debug] off and a transport error, [emitBulk] treats the batch as
    failed and returns [(0, nil)] after its one request; with [Debug] on,
    or with no transport error, it panics on a nil dereference. *)
Theorem emitBulk_nil_response (t : State S) :
  let evts := (GetAll (store t)).1 in
  let a := net t (length (sent t)) (batch evts) in
  (GetAll (store t)).2 = None → resp a = None →
  (Debug o = false → is_Some (err a) →
     ∃ t', emitBulk o t = Ret (0, None) t'
           ∧ sent t' = sent t ++ [batch evts])
  ∧ (Debug o = true ∨ err a = None → emitBulk o t = Panic NilDereference).
Proof.
  intros evts a Hok Hnil. split.
  - intros Hd Herr.
    destruct (emitBulk_returns_any t Hok) as (t' & E & Hq & _).
    { right. done. }
    fold evts a in E, Hq. exists t'. split; [|done]. rewrite E.
    unfold delivered. by destruct Herr as [x ->].
  - intros Hcase. unfold emitBulk. run. rewrite (snapshot_eq t Hok). fold evts.
    by rewrite (emitBulk_post_nil (now t) evts t Hnil Hcase).
Qed.

Lemma emit_returns_any (t : State S) :
  answers t →
  ∃ r t1, emit o t = Ret r t1 ∧ same_channels t t1
          ∧ sent t1 = sent t ++ flush_requests o t.
Proof.
  intros Hans. unfold flush_requests.
  destruct (Count (store t) =? 0) eqn:Hz.
  - apply Z.eqb_eq in Hz. pose proof (emit_on_empty t Hz) as E.
    eexists _, t. rewrite app_nil_r. by split_and!.
  - apply Z.eqb_neq in Hz.
    destruct (GetAll (store t)).2 as [er|] eqn:Her.
    + pose proof (emit_GetAll_failed t er Hz Her) as E.
      eexists _, t. rewrite app_nil_r. by split_and!.
    + destruct (Bulk o) eqn:Hb.
      * destruct (emitBulk_returns_any t Her) as (t1 & E & Hq & Hc).
        { left. apply Hans. }
        eexists _, t1. split_and!; try done.
        by rewrite (emit_nonempty t Hz), Hb.
      * destruct (emit_range_requests (GetAll (store t)).1 0 t)
          as (t1 & E & Hq & Hc).
        { intros k e _. apply Hans. }
        eexists _, t1. split_and!; try done.
        rewrite (emit_nonempty t Hz), Hb. run. rewrite (snapshot_eq t Her).
        by rewrite E.
Qed.

(** X2.  When every reply carries a response object, [Flush] returns on
    any store, whatever its operations report.  It leaves the queue, the
    [cl] channel and the network as they are, and issues: nothing when the
    store is empty or its snapshot fails; in bulk mode one request with the
    whole snapshot; per event, one request for each event of the snapshot. *)
Theorem Flush_returns (t : State S) :
  answers t →
  ∃ t', Flush o t = Ret () t'
        ∧ same_channels t t'
        ∧ sent t' = sent t ++ flush_requests o t.
Proof.
  intros Hans.
  destruct (emit_returns_any t Hans) as (r & t1 & E & Hc & Hq).
  destruct (Flush_report_returns r t1) as (t' & E' & _ & Hq' & Hc' & _).
  exists t'. split_and!.
  - unfold Flush. by erewrite bind_Ret by exact E.
  - by etrans.
  - congruence.
Qed.

(** *** What a flush never does to the store *)

#[local] Instance no_new_entries_preorder : PreOrder (no_new_entries (S:=S)).
Proof.
  split; unfold no_new_entries.
  - by intros t.
  - intros t1 t2 t3 H12 H23. by etrans.
Qed.

Lemma passive_no_new (t t' : State S) : passive t t' → no_new_entries t t'.
Proof. intros (Hs & _). unfold no_new_entries. by rewrite Hs. Qed.

Lemma Update_no_new e (t : State S) :
  no_new_entries t (set_store (Update e (store t)).2 t).
Proof.
  unfold no_new_entries. cbn.
  destruct (decide ((Update e (store t)).1 = None)) as [Hok|Hfail].
  - apply Update_done in Hok as [Hlive ->]. by rewrite dom_insert_lookup_L.
  - apply Update_failed in Hfail. by rewrite Hfail.
Qed.

Lemma Remove_no_new e (t : State S) :
  no_new_entries t (set_store (Remove e (store t)).2 t).
Proof.
  unfold no_new_entries. cbn.
  destruct (decide ((Remove e (store t)).1 = None)) as [Hok|Hfail].
  - apply Remove_done in Hok. rewrite Hok, dom_delete_L.
    by apply subseteq_difference_l.
  - apply Remove_failed in Hfail. by rewrite Hfail.
Qed.

Lemma Flush_step_no_new f : keeps no_new_entries (λ _, True) (Flush_step o f).
Proof.
  apply (Flush_step_keeps no_new_entries (λ _, True)); try done.
  - apply passive_no_new.
  - intros e t _ _. apply Update_no_new.
  - intros e t _. apply Remove_no_new.
Qed.

Lemma Flush_step_same_channels f :
  keeps same_channels (λ _, True) (Flush_step o f).
Proof.
  apply (Flush_step_keeps same_channels (λ _, True)); try done.
  apply passive_same_channels.
Qed.

Lemma no_new_entries_Count (t t' : State S) :
  no_new_entries t t' → Count (store t') ≤ Count (store t).
Proof.
  intros Hsub. rewrite !Count_entries, <-!size_dom.
  apply inj_le. by apply subseteq_size.
Qed.

Lemma Flush_no_new : keeps no_new_entries (λ _, True) (Flush o).
Proof.
  apply (Flush_keeps no_new_entries (λ _, True)); try done.
  - apply passive_no_new.
  - intros e t _ _. apply Update_no_new.
  - intros e t _. apply Remove_no_new.
Qed.

(** X7.  A flush never adds to the store, on any store that keeps the
    contract and whatever its operations report: every identity stored
    after a [Flush] was stored before it, and [Count] has not grown. *)
Theorem Flush_never_adds (t t' : State S) :
  Flush o t = Ret () t' →
  no_new_entries t t' ∧ Count (store t') ≤ Count (store t).
Proof.
  intros E. apply Flush_no_new in E as [Hsub _].
  split; [done | by apply no_new_entries_Count].
Qed.

(** X10.  An event that passes validation and that the store accepts makes
    [Count] one larger.  When the new count has reached [FlushCount], the
    iteration goes on exactly as an iteration for a timer tick would from
    there: it flushes before the next case is taken.  Below the threshold
    it ends there, with no request issued. *)
Theorem threshold_triggers_flush e rest (t : State S) :
  q t = e :: rest → Strict o && negb (event.Validate e) = false →
  (Set_ e (store t)).1 = None →
  let t1 := set_store (Set_ e (store t)).2 (set_q rest t) in
  Count (store t1) = Count (store t) + 1
  ∧ (FlushCount o ≤ Count (store t) + 1 →
       run_iteration o FromQ t = Some (case_tick o t1))
  ∧ (Count (store t) + 1 < FlushCount o →
       run_iteration o FromQ t = Some (Ret NextIteration t1)).
Proof.
  intros Hq Hv Hset t1.
  assert (Count (store t1) = Count (store t) + 1) as Hcount.
  { unfold t1. cbn. rewrite !Count_entries.
    destruct (Set_done e (store t) Hset) as (k & Hk & ->).
    rewrite map_size_insert_None by done. lia. }
  split; [done|].
  assert (run_iteration o FromQ t
          = Some ((due ← mret (FlushCount o <=? Count (store t1));
                   (if (due : bool) then Flush o else mret ());;
                   mret NextIteration) t1)) as Hrun.
  { unfold run_iteration. rewrite Hq. unfold case_event, admit_event.
    rewrite Hv. run. by rewrite Hset. }
  rewrite Hrun, Hcount. split; intros Hcmp.
  - apply Z.leb_le in Hcmp. run. by rewrite Hcmp.
  - apply Z.leb_gt in Hcmp. run. by rewrite Hcmp.
Qed.

(** X11.  Once the loop of [run] has returned (it does so on the closed
    [cl] channel, without a flush of its own), it stays returned, whatever
    the goroutines do: nothing is taken off the queue any more, and no
    identity enters the store.  An event queued from then on stays in the
    buffer of the channel. *)
Theorem nothing_admitted_after_return ms y y' :
  loop y = Returned → play o ms y = Next y' →
  loop y' = Returned
  ∧ q (machine y) `prefix_of` q (machine y')
  ∧ no_new_entries (machine y) (machine y').
Proof.
  revert y. induction ms as [|m ms IH]; intros y Hl; cbn.
  { intros ?. simplify_eq. by split_and!. }
  destruct (move o m y) as [y1| |] eqn:E; try done. intros Hplay.
  assert (loop y1 = Returned
          ∧ q (machine y) `prefix_of` q (machine y1)
          ∧ no_new_entries (machine y) (machine y1)) as (Hl1 & Hq1 & Hn1).
  { assert (∀ t l, no_new_entries (S:=S) t (set_q l t)) as Hsetq
      by (intros; by unfold no_new_entries).
    assert (∀ t b, no_new_entries (S:=S) t (set_cl b t)) as Hsetcl
      by (intros; by unfold no_new_entries).
    destruct m as [c|n| |n e|n|n|n|n]; cbn in E.
    - rewrite Hl in E. by destruct c.
    - unfold loop_receives in E. cbn in E. rewrite Hl in E.
      destruct (callers y !! n) as [[|e|f]|]; try done.
      by destruct (q (machine y)).
    - by rewrite Hl in E.
    - destruct (callers y !! n) as [[|e'|f]|]; try done.
      destruct (has_room o (machine y)); simplify_eq; cbn;
        split_and!; try done. by apply prefix_app_r.
    - destruct (callers y !! n) as [[|e'|f]|]; try done.
      destruct (has_room o (machine y)); simplify_eq; cbn;
        split_and!; try done. by apply prefix_app_r.
    - destruct (callers y !! n) as [[|e'|f]|]; try done.
      simplify_eq. by split_and!.
    - destruct (callers y !! n) as [[|e'|f]|]; try done.
      unfold close_cl in E. destruct (cl (machine y)); [done|].
      simplify_eq. cbn. by split_and!.
    - destruct (callers y !! n) as [[|e'|f]|]; try done.
      destruct (Flush_step o f (machine y)) as [f' t'|] eqn:Ef; [|done].
      simplify_eq. cbn.
      pose proof (Flush_step_no_new f _ _ _ Ef) as [Hn _].
      pose proof (Flush_step_same_channels f _ _ _ Ef) as [(_ & Hqq & _) _].
      split_and!; try done. by rewrite Hqq. }
  destruct (IH y1 Hl1 Hplay) as (Hl' & Hq' & Hn').
  split_and!; [done | by etrans | by etrans].
Qed.

(** *** Flushes against a collector that never confirms *)

Lemma snapshot_complete (s : S) k e :
  (GetAll s).2 = None → entries s !! k = Some e → e ∈ (GetAll s).1.
Proof.
  intros Hok Hk. rewrite (GetAll_entries s Hok).
  apply list_elem_of_fmap. exists (k, e). split; [done|].
  by apply elem_of_map_to_list.
Qed.

Lemma snapshot_absent (s : S) k :
  (GetAll s).2 = None → entries s !! k = None → k ∉ ID <$> (GetAll s).1.
Proof.
  intros Hok Hk Hin. apply list_elem_of_fmap in Hin as (e & -> & He).
  rewrite (snapshot_live s e Hok He) in Hk. done.
Qed.

Section Retries.
Context `{!Dependable S}.

Lemma emitBulk_settles (t : State S) :
  let evts := (GetAll (store t)).1 in
  let a := net t (length (sent t)) (batch evts) in
  bulk_safe o a →
  ∃ t', emitBulk o t
          = Ret (if delivered a then Z.of_nat (length evts) else 0, None) t'
        ∧ net t' = net t
        ∧ entries (store t')
          = if delivered a then ∅
            else omap (kept_for_retry o (now t + took a)) (entries (store t)).
Proof.
  intros evts a Hsafe.
  pose proof (GetAll_succeeds (store t)) as Hok.
  pose proof (snapshot_NoDup (store t) Hok) as Hnd.
  pose proof (λ e, snapshot_live (store t) e Hok) as Hlive.
  fold evts in Hnd, Hlive.
  unfold emitBulk. run. rewrite (snapshot_eq t Hok). fold evts.
  destruct (emitBulk_post_returns (now t) evts t Hsafe)
    as (t1 & E1 & Hs1 & Hq1 & Hn1 & Hnet1 & _).
  fold a in E1, Hn1. rewrite E1.
  destruct (delivered a) eqn:Hd; cbn.
  - destruct (bulk_range_delivered evts 0 t1)
      as (t' & E & Hn & Hq & (_ & _ & Hnet) & Hin & Hout).
    rewrite E. cbn. exists t'. split_and!; [done | congruence |].
    apply map_eq. intros k. rewrite lookup_empty.
    destruct (decide (k ∈ ID <$> evts)) as [Hk|Hk]; [by apply Hin|].
    rewrite (Hout k Hk), Hs1.
    destruct (entries (store t) !! k) as [e|] eqn:He; [|done].
    exfalso. apply Hk. rewrite <-(entries_ID _ _ _ He).
    apply list_elem_of_fmap_2. by eapply snapshot_complete.
  - destruct (bulk_range_failed evts 0 t1 Hnd)
      as (t' & E & Hn & Hq & (_ & _ & Hnet) & Hin & Hout).
    { intros e He. rewrite Hs1. rewrite (Hlive e He). eauto. }
    rewrite E. cbn. exists t'. split_and!; [done | congruence |].
    apply map_eq. intros k. rewrite lookup_omap.
    destruct (entries (store t) !! k) as [e|] eqn:He; cbn.
    + pose proof (entries_ID _ _ _ He) as <-.
      rewrite (Hin e); [by rewrite Hn1|]. by eapply snapshot_complete.
    + rewrite (Hout k), Hs1; [done|]. by apply snapshot_absent.
Qed.

(** X8.  On a store that does not fail, a bulk flush whose request is
    confirmed leaves the store empty; one whose request is not confirmed
    leaves, of every stored event, its retry-policy outcome at the time the
    request came back: nothing if its new count is over the budget, else the
    event with one more attempt.  No other entry appears. *)
Theorem bulk_flush_entries (t : State S) :
  let evts := (GetAll (store t)).1 in
  let a := net t (length (sent t)) (batch evts) in
  Count (store t) ≠ 0 → Bulk o = true → bulk_safe o a →
  ∃ t', emit o t
          = Ret (if delivered a then Z.of_nat (length evts) else 0, None) t'
        ∧ entries (store t')
          = (if delivered a then ∅
             else omap (kept_for_retry o (now t + took a)) (entries (store t)))
        ∧ (delivered a = true → Count (store t') = 0).
Proof.
  intros evts a Hc Hb Hsafe.
  destruct (emitBulk_settles t Hsafe) as (t' & E & _ & Hent).
  fold evts a in E, Hent. exists t'. split_and!.
  - by rewrite (emit_nonempty t Hc), Hb.
  - done.
  - intros Hd. rewrite Hd in Hent.
    rewrite Count_entries, Hent. by rewrite map_size_empty.
Qed.

Lemma emit_range_failed evts i (t : State S) :
  answers t → never_confirms t → NoDup (ID <$> evts) →
  (∀ e, e ∈ evts → is_Some (entries (store t) !! ID e)) →
  ∃ t', range (emit_event o) evts i t = Ret i t'
        ∧ same_channels t t'
        ∧ (∀ e, e ∈ evts →
             ∃ tm, entries (store t') !! ID e = kept_for_retry o tm e)
        ∧ (∀ k, k ∉ ID <$> evts →
             entries (store t') !! k = entries (store t) !! k).
Proof.
  revert i t. induction evts as [|e evts IH]; intros i t Hans Hnever Hnd Hlive;
    cbn [range].
  - run. eexists. split_and!; try done.
    intros e He. by apply elem_of_nil in He.
  - cbn in Hnd. apply NoDup_cons in Hnd as [Hhead Hnd].
    destruct (send_answered (Event e) t (Hans _ _))
      as (t0 & Es & Hs0 & Hq0 & Hn0 & Hnet0 & Hcl0 & Hqq0).
    destruct (if 299 <? status _ then _ else _) as [serr|] eqn:Hres in Es.
    2: { apply send_result_delivered in Hres. by rewrite Hnever in Hres. }
    destruct (emit_event_failed e i serr t t0 Es)
      as (t1 & E1 & Hs1 & _ & _ & Hc1).
    erewrite bind_Ret by exact E1.
    assert (entries (store t1)
            = match kept_for_retry o (now t0) e with
              | Some e' => <[ID e := e']> (entries (store t))
              | None => delete (ID e) (entries (store t))
              end) as Hent.
    { rewrite Hs1, <-Hs0. apply failure_entries. rewrite Hs0.
      apply Hlive. by left. }
    assert (∀ k, k ≠ ID e → entries (store t1) !! k = entries (store t) !! k)
      as Hframe.
    { intros k Hk. rewrite Hent.
      destruct (kept_for_retry o (now t0) e);
        [by rewrite lookup_insert_ne | by rewrite lookup_delete_ne]. }
    assert (same_channels t t1) as Hc.
    { destruct Hc1 as (?&?&?). repeat split; congruence. }
    pose proof Hc as (_ & _ & Hnet1).
    destruct (IH i t1) as (t' & E & Hc' & Hin & Hout).
    { intros n r. rewrite Hnet1. apply Hans. }
    { intros n r. rewrite Hnet1. apply Hnever. }
    { done. }
    { intros e2 He2. rewrite Hframe; [apply Hlive; by right|].
      intros Heq. apply Hhead. rewrite <-Heq. by apply list_elem_of_fmap_2. }
    exists t'. split_and!; [done | by etrans | |].
    + intros e2 He2. apply elem_of_cons in He2 as [->|He2]; [|by apply Hin].
      exists (now t0). rewrite (Hout _ Hhead), Hent.
      destruct (kept_for_retry o (now t0) e);
        [by rewrite lookup_insert_eq | by rewrite lookup_delete_eq].
    + intros k Hk. apply not_elem_of_cons in Hk as [Hne Hnot].
      by rewrite (Hout k Hnot), Hframe.
Qed.

(** One flush that no reply confirms, in either mode. *)
Lemma failed_flush (t : State S) :
  answers t → never_confirms t →
  ∃ t', Flush o t = Ret () t' ∧ net t' = net t
        ∧ ∀ k, ∃ tm,
            entries (store t') !! k
            = entries (store t) !! k ≫= kept_for_retry o tm.
Proof.
  intros Hans Hnever.
  pose proof (GetAll_succeeds (store t)) as Hok.
  assert (∃ r t1, emit o t = Ret r t1 ∧ net t1 = net t
            ∧ ∀ k, ∃ tm, entries (store t1) !! k
                         = entries (store t) !! k ≫= kept_for_retry o tm)
    as (r & t1 & E & Hnet & Hent).
  { destruct (decide (Count (store t) = 0)) as [Hz|Hz].
    - pose proof (emit_on_empty t Hz) as E.
      eexists _, t. split_and!; try done. intros k. exists 0.
      rewrite Count_entries in Hz.
      assert (entries (store t) = ∅) as ->
        by (apply map_size_empty_inv; lia).
      by rewrite lookup_empty.
    - destruct (Bulk o) eqn:Hb.
      + destruct (emitBulk_settles t) as (t1 & E & Hnet & Hent).
        { left. apply Hans. }
        rewrite Hnever in E, Hent.
        eexists _, t1. split_and!; try done.
        * by rewrite (emit_nonempty t Hz), Hb.
        * intros k. eexists. rewrite Hent. apply lookup_omap.
      + pose proof (snapshot_NoDup (store t) Hok) as Hnd.
        destruct (emit_range_failed (GetAll (store t)).1 0 t Hans Hnever Hnd)
          as (t1 & E & (_ & _ & Hnet) & Hin & Hout).
        { intros e He. rewrite (snapshot_live (store t) e Hok He). eauto. }
        eexists _, t1. split_and!; try done.
        * rewrite (emit_nonempty t Hz), Hb. run. rewrite (snapshot_eq t Hok).
          by rewrite E.
        * intros k. destruct (entries (store t) !! k) as [e|] eqn:He; cbn.
          -- pose proof (entries_ID _ _ _ He) as <-.
             apply Hin. by eapply snapshot_complete.
          -- exists 0. rewrite Hout; [done|]. by apply snapshot_absent. }
  destruct (Flush_report_returns r t1) as (t' & E' & Hs' & _ & (_ & _ & Hnet') & _).
  exists t'. split_and!.
  - unfold Flush. by erewrite bind_Ret by exact E.
  - congruence.
  - intros k. rewrite Hs'. apply Hent.
Qed.

Lemma flushes_absent k id (t : State S) :
  answers t → never_confirms t → entries (store t) !! id = None →
  ∃ t', flushes o k t = Ret () t' ∧ entries (store t') !! id = None.
Proof.
  revert t. induction k as [|k IH]; intros t Hans Hnever Hid; cbn.
  - run. by exists t.
  - destruct (failed_flush t Hans Hnever) as (t1 & E1 & Hnet1 & Hent1).
    erewrite bind_Ret by exact E1.
    apply IH.
    + intros n r. rewrite Hnet1. apply Hans.
    + intros n r. rewrite Hnet1. apply Hnever.
    + destruct (Hent1 id) as (tm & ->). by rewrite Hid.
Qed.

(** X9.  Against a collector that confirms nothing, on a store that does
    not fail and in either mode, [k] flushes in a row return, and an event
    that was stored with [a >= 0] attempts is then: gone, if [MaxRetries > 0]
    and [a + k] is above it (and a flush took place); and otherwise still
    stored, under its identity and with its payload, with exactly [a + k]
    attempts.  So with [MaxRetries = n > 0] a new event is sent [n + 1] times
    and then dropped, and with [MaxRetries <= 0] it is kept for ever. *)
Theorem retries_bounded k id e (t : State S) :
  answers t → never_confirms t →
  entries (store t) !! id = Some e →
  0 ≤ Attempts e → Attempts e + Z.of_nat k ≤ int_max →
  ∃ t', flushes o k t = Ret () t'
    ∧ (0 < MaxRetries o → MaxRetries o < Attempts e + Z.of_nat k →
       (0 < k)%nat → entries (store t') !! id = None)
    ∧ (MaxRetries o ≤ 0 ∨ Attempts e + Z.of_nat k ≤ MaxRetries o →
       ∃ e', entries (store t') !! id = Some e'
             ∧ Attempts e' = Attempts e + Z.of_nat k
             ∧ ID e' = ID e ∧ Event e' = Event e).
Proof.
  revert e t. induction k as [|k IH]; intros e t Hans Hnever Hid Ha Hmaxint.
  - cbn. run. exists t. split; [done|]. split; [lia|].
    intros _. exists e. split_and!; try done. lia.
  - cbn [flushes].
    destruct (failed_flush t Hans Hnever) as (t1 & E1 & Hnet1 & Hent1).
    erewrite bind_Ret by exact E1.
    assert (answers t1) as Hans1 by (intros n r; rewrite Hnet1; apply Hans).
    assert (never_confirms t1) as Hnever1
      by (intros n r; rewrite Hnet1; apply Hnever).
    destruct (Hent1 id) as (tm & Hid1). rewrite Hid in Hid1. cbn in Hid1.
    unfold kept_for_retry in Hid1.
    assert (Attempts (mark_attempt e tm) = Attempts e + 1) as Hcount.
    { apply mark_attempt_counts. unfold int_min, int_max in *. lia. }
    destruct (exhausted o (mark_attempt e tm)) eqn:Hx.
    + apply exhausted_iff in Hx as [Hpos Hover]. rewrite Hcount in Hover.
      destruct (flushes_absent k id t1 Hans1 Hnever1 Hid1) as (t' & E & Hgone).
      exists t'. split; [done|]. split; [done|].
      intros [?|?]; lia.
    + assert (MaxRetries o ≤ 0 ∨ Attempts e + 1 ≤ MaxRetries o) as Hunder.
      { unfold exhausted in Hx. rewrite Hcount in Hx.
        apply andb_false_iff in Hx as [Hx|Hx]; [left | right]; lia. }
      destruct (IH (mark_attempt e tm) t1 Hans1 Hnever1 Hid1)
        as (t' & E & Hdrop & Hkeep); [lia | lia |].
      exists t'. split; [done|]. rewrite Hcount in Hdrop, Hkeep. split.
      * intros Hpos Hover _. apply Hdrop; [done | lia | lia].
      * intros Hcase. destruct Hkeep as (e' & He' & Hat & Hide & Hev); [lia|].
        exists e'. split_and!; try done. lia.
Qed.

End Retries.

(** *** The store after a per-event flush, and after [Close] *)

Section PerEvent.
Context `{!Dependable S}.

Lemma emit_range_entries evts i (t : State S) :
  answers t → NoDup (ID <$> evts) →
  (∀ e, e ∈ evts → is_Some (entries (store t) !! ID e)) →
  ∃ t', range (emit_event o) evts i t
          = Ret (i + deliveries (net t) (length (sent t)) evts) t'
        ∧ (∀ k e, evts !! k = Some e →
             ∃ tm, entries (store t') !! ID e
                   = if delivered (net t (length (sent t) + k)%nat (single e))
                     then None else kept_for_retry o tm e)
        ∧ (∀ k, k ∉ ID <$> evts →
             entries (store t') !! k = entries (store t) !! k).
Proof.
  revert i t. induction evts as [|e evts IH]; intros i t Hans Hnd Hlive;
    cbn [range].
  - run. eexists. split_and!; try done.
    unfold deliveries. cbn. by rewrite Z.add_0_r.
  - cbn in Hnd. apply NoDup_cons in Hnd as [Hhead Hnd].
    pose (a := net t (length (sent t)) (single e)).
    destruct (send_answered (Event e) t (Hans _ _))
      as (t0 & Es & Hs0 & Hq0 & Hn0 & Hnet0 & Hcl0 & Hqq0).
    fold (single e) in Es, Hq0, Hn0. fold a in Es.
    assert (∃ t1 tm, emit_event o e i t
                  = Ret (i + if delivered a then 1 else 0) t1
                  ∧ sent t1 = sent t ++ [single e] ∧ net t1 = net t
                  ∧ entries (store t1) !! ID e
                    = (if delivered a then None else kept_for_retry o tm e)
                  ∧ touches_only (ID e) t t1)
      as (t1 & tm & E1 & Hq1 & Hnet1 & Hmine & Hframe).
    { destruct (if 299 <? status a then Some (ErrStatusCode (status a))
                else err a) as [serr|] eqn:Hres.
      - assert (delivered a = false) as Hd.
        { apply not_true_is_false. rewrite <-send_result_delivered. by rewrite Hres. }
        destruct (emit_event_failed e i serr t t0 Es)
          as (t1 & E1 & Hs1 & _ & Hq1 & (_ & _ & Hnet1)).
        exists t1, (now t0). rewrite Hd, Z.add_0_r.
        split_and!; [done | congruence | congruence | |].
        + rewrite Hs1, failure_entries.
          * destruct (kept_for_retry o (now t0) e);
              [by rewrite lookup_insert_eq | by rewrite lookup_delete_eq].
          * rewrite Hs0. apply Hlive. by left.
        + by apply (loop_body_touches None e i) in E1 as [? _].
      - assert (delivered a = true) as Hd.
        { rewrite <-send_result_delivered. by rewrite Hres. }
        destruct (emit_event_delivered e i t t0 Es)
          as (t1 & E1 & Hs1 & _ & Hq1 & (_ & _ & Hnet1)).
        exists t1, 0. rewrite Hd.
        split_and!; [done | congruence | congruence | |].
        + rewrite Hs1, (Remove_done _ _ (Remove_succeeds e (store t0))).
          apply lookup_delete_eq.
        + by apply (loop_body_touches None e i) in E1 as [? _]. }
    erewrite bind_Ret by exact E1.
    destruct (IH (i + if delivered a then 1 else 0) t1) as (t' & E & Hin & Hout).
    { intros n r. rewrite Hnet1. apply Hans. }
    { done. }
    { intros e2 He2. rewrite Hframe; [apply Hlive; by right|].
      intros Heq. apply Hhead. rewrite <-Heq. by apply list_elem_of_fmap_2. }
    exists t'. rewrite Hq1, Hnet1 in E. rewrite length_app in E. cbn in E.
    replace (length (sent t) + 1)%nat with (Datatypes.S (length (sent t))) in E by lia.
    split_and!.
    + rewrite E, replies_cons. fold a. f_equal. lia.
    + intros k e2 Hk. destruct k as [|k]; cbn in Hk.
      * simplify_eq. rewrite Nat.add_0_r. exists tm.
        by rewrite (Hout _ Hhead).
      * destruct (Hin k e2 Hk) as (tm2 & Hk2). exists tm2. rewrite Hk2.
        rewrite Hnet1, Hq1, length_app. cbn.
        by replace (length (sent t) + 1 + k)%nat
          with (length (sent t) + Datatypes.S k)%nat by lia.
    + intros k Hk. apply not_elem_of_cons in Hk as [Hne Hnot].
      rewrite (Hout k Hnot). by apply Hframe.
Qed.

(** X12.  On a store that does not fail, a per-event flush settles each
    stored event by the reply to its own request alone: its entry is gone
    when that reply confirms delivery, and else holds its retry-policy
    outcome (nothing if its new count is over the budget, else the event
    with one more attempt).  No other entry appears. *)
Theorem emit_entries_per_event (t : State S) :
  let evts := (GetAll (store t)).1 in
  Count (store t) ≠ 0 → Bulk o = false → answers t →
  ∃ t', emit o t = Ret (deliveries (net t) (length (sent t)) evts, None) t'
    ∧ (∀ k e, evts !! k = Some e →
         entries (store t) !! ID e = Some e
         ∧ ∃ tm, entries (store t') !! ID e
                 = if delivered (net t (length (sent t) + k)%nat (single e))
                   then None else kept_for_retry o tm e)
    ∧ (∀ id, entries (store t) !! id = None →
         entries (store t') !! id = None).
Proof.
  intros evts Hc Hb Hans.
  pose proof (GetAll_succeeds (store t)) as Hok.
  pose proof (snapshot_NoDup (store t) Hok) as Hnd.
  pose proof (λ e, snapshot_live (store t) e Hok) as Hlive.
  fold evts in Hnd, Hlive.
  destruct (emit_range_entries evts 0 t Hans Hnd) as (t' & E & Hin & Hout).
  { intros e He. rewrite (Hlive e He). eauto. }
  exists t'. split_and!.
  - rewrite (emit_nonempty t Hc), Hb. run. rewrite (snapshot_eq t Hok).
    fold evts. by rewrite E.
  - intros k e Hk. split; [|by apply Hin].
    apply Hlive. by eapply list_elem_of_lookup_2.
  - intros id Hid. rewrite Hout; [done|]. by apply snapshot_absent.
Qed.

Lemma deliveries_all net n evts :
  (∀ k r, delivered (net k r) = true) →
  deliveries net n evts = Z.of_nat (length evts).
Proof.
  intros Hall. unfold deliveries. f_equal. revert n.
  induction evts as [|e evts IH]; intros n; cbn [replies]; [done|].
  rewrite filter_cons. case_decide as Hd; [|by rewrite Hall in Hd].
  cbn [length]. by rewrite IH.
Qed.

Lemma snapshot_length (s : S) :
  (GetAll s).2 = None → Z.of_nat (length (GetAll s).1) = Count s.
Proof.
  intros Hok. rewrite Count_entries, (GetAll_entries s Hok).
  by rewrite length_fmap, length_map_to_list.
Qed.

(** X13.  When the collector confirms every request, one flush, in either
    mode, delivers everything: [emit] returns the number of stored events
    and leaves the store empty. *)
Theorem confirmed_flush_empties (t : State S) :
  answers t → (∀ n r, delivered (net t n r) = true) →
  ∃ t', emit o t = Ret (Count (store t), None) t'
        ∧ entries (store t') = ∅ ∧ Count (store t') = 0.
Proof.
  intros Hans Hall.
  pose proof (GetAll_succeeds (store t)) as Hok.
  assert (∃ t', emit o t = Ret (Count (store t), None) t'
                ∧ entries (store t') = ∅) as (t' & E & Hent).
  { destruct (decide (Count (store t) = 0)) as [Hz|Hz].
    - pose proof (emit_on_empty t Hz) as E. exists t. rewrite Hz.
      split; [done|]. rewrite Count_entries in Hz.
      apply map_size_empty_inv. lia.
    - destruct (Bulk o) eqn:Hb.
      + destruct (emitBulk_settles t) as (t' & E & _ & Hent).
        { left. apply Hans. }
        rewrite Hall in E, Hent. exists t'. split; [|done].
        by rewrite (emit_nonempty t Hz), Hb, E, (snapshot_length _ Hok).
      + destruct (emit_range_entries (GetAll (store t)).1 0 t Hans)
          as (t' & E & Hin & Hout).
        { by apply snapshot_NoDup. }
        { intros e He. rewrite (snapshot_live (store t) e Hok He). eauto. }
        exists t'. split.
        * rewrite (emit_nonempty t Hz), Hb. run. rewrite (snapshot_eq t Hok).
          rewrite E. cbn.
          by rewrite (deliveries_all _ _ _ Hall), (snapshot_length _ Hok).
        * apply map_eq. intros id. rewrite lookup_empty.
          destruct (entries (store t) !! id) as [e|] eqn:He.
          -- pose proof (snapshot_complete _ _ _ Hok He) as Hel.
             apply list_elem_of_lookup_1 in Hel as (k & Hk).
             destruct (Hin k e Hk) as (tm & Hgone).
             rewrite Hall in Hgone. by rewrite <-(entries_ID _ _ _ He).
          -- rewrite Hout; [done|]. by apply snapshot_absent. }
  exists t'. split_and!; try done.
  rewrite Count_entries, Hent. by rewrite map_size_empty.
Qed.

End PerEvent.

(** X14.  [Close] on a client whose [cl] channel is open, with a response
    object in every reply, returns with the channel closed after the
    requests of one flush of the store as it is.  It takes nothing off the
    queue: events still in the buffer of [t.q] are neither stored nor sent
    by [Close]. *)
Theorem Close_leaves_queue (t : State S) :
  cl t = false → answers t →
  ∃ t', Close o t = Ret () t'
    ∧ cl t' = true ∧ q t' = q t
    ∧ sent t' = sent t ++ flush_requests o t
    ∧ no_new_entries t t'.
Proof.
  intros Hcl Hans.
  destruct (emit_returns_any (set_cl true t) Hans) as (r & t1 & E & Hc & Hq).
  destruct (Flush_report_returns r t1) as (t' & E' & _ & Hq' & Hc' & _).
  assert (Flush o (set_cl true t) = Ret () t') as EF.
  { unfold Flush. by erewrite bind_Ret by exact E. }
  destruct Hc as (Hc1 & Hq1 & _), Hc' as (Hc2 & Hq2 & _).
  exists t'. split_and!.
  - unfold Close. erewrite bind_Ret by (by apply close_cl_open). done.
  - by rewrite Hc2, Hc1.
  - by rewrite Hq2, Hq1.
  - by rewrite Hq', Hq.
  - apply Flush_no_new in EF as [EF _]. exact EF.
Qed.

End Proofs.

(** ** The in-memory store meets the contract *)

Lemma of_to_row e : of_row (ID e) (to_row e) = e.
Proof. by destruct e. Qed.

Lemma mem_entries_lookup s k : mem_entries s !! k = of_row k <$> table s !! k.
Proof. unfold mem_entries. rewrite map_lookup_imap. by destruct (table s !! k). Qed.

Lemma mem_entries_insert k e s :
  ID e = k →
  mem_entries {| table := <[k := to_row e]> (table s) |}
  = <[k := e]> (mem_entries s).
Proof.
  intros <-. unfold mem_entries. cbn.
  rewrite (map_imap_insert_Some _ _ _ _ e); [done|].
  cbv beta. by rewrite of_to_row.
Qed.

Lemma mem_entries_size s : size (mem_entries s) = size (table s).
Proof.
  rewrite <-!size_dom. f_equal. apply set_eq. intros k.
  rewrite !elem_of_dom, mem_entries_lookup. apply fmap_is_Some.
Qed.

Lemma mem_entries_list (m : gmap N Row) :
  (λ kr, of_row kr.1 kr.2) <$> map_to_list m
  ≡ₚ (map_to_list (map_imap (λ k r, Some (of_row k r)) m)).*2.
Proof.
  induction m as [|k r m Hk IH] using map_ind.
  - by rewrite map_imap_empty, !map_to_list_empty.
  - rewrite (map_imap_insert_Some _ _ _ _ (of_row k r)) by done.
    rewrite !map_to_list_insert; [|by rewrite map_lookup_imap, Hk|done].
    cbn. by rewrite IH.
Qed.

Lemma mem_entries_ID s k e : mem_entries s !! k = Some e → ID e = k.
Proof.
  rewrite mem_entries_lookup. destruct (table s !! k); intros ?; by simplify_eq/=.
Qed.

Lemma mem_Count_entries s : mem_Count s = Z.of_nat (size (mem_entries s)).
Proof. unfold mem_Count. by rewrite mem_entries_size. Qed.

Lemma mem_GetAll_entries s :
  (mem_GetAll s).2 = None →
  (mem_GetAll s).1 ≡ₚ (map_to_list (mem_entries s)).*2.
Proof. intros _. apply mem_entries_list. Qed.

Lemma mem_Set_done ev s :
  (mem_Set ev s).1 = None →
  ∃ k, mem_entries s !! k = None ∧
       mem_entries (mem_Set ev s).2 = <[k := admitted k ev]> (mem_entries s).
Proof.
  intros _. exists (fresh (dom (table s))). split.
  - rewrite mem_entries_lookup.
    by rewrite (proj1 (not_elem_of_dom _ _) (is_fresh (dom (table s)))).
  - by apply mem_entries_insert.
Qed.

Lemma mem_Set_failed ev s :
  (mem_Set ev s).1 ≠ None → mem_entries (mem_Set ev s).2 = mem_entries s.
Proof. done. Qed.

Lemma mem_Update_done e s :
  (mem_Update e s).1 = None →
  is_Some (mem_entries s !! ID e) ∧
  mem_entries (mem_Update e s).2 = <[ID e := e]> (mem_entries s).
Proof.
  unfold mem_Update. rewrite mem_entries_lookup.
  destruct (table s !! ID e) as [r|] eqn:Hr; [|done]. intros _. cbn. split.
  - by eexists.
  - by apply mem_entries_insert.
Qed.

Lemma mem_Update_failed e s :
  (mem_Update e s).1 ≠ None → mem_entries (mem_Update e s).2 = mem_entries s.
Proof. unfold mem_Update. by destruct (table s !! ID e). Qed.

Lemma mem_Remove_done e s :
  (mem_Remove e s).1 = None →
  mem_entries (mem_Remove e s).2 = delete (ID e) (mem_entries s).
Proof. intros _. unfold mem_entries. cbn. apply map_imap_delete. Qed.

Lemma mem_Remove_failed e s :
  (mem_Remove e s).1 ≠ None → mem_entries (mem_Remove e s).2 = mem_entries s.
Proof. done. Qed.

#[global] Instance MemStore_contract : StoreContract MemStore := {|
  entries := mem_entries;
  entries_ID := mem_entries_ID;
  Count_entries := mem_Count_entries;
  GetAll_entries := mem_GetAll_entries;
  Set_done := mem_Set_done;
  Set_failed := mem_Set_failed;
  Update_done := mem_Update_done;
  Update_failed := mem_Update_failed;
  Remove_done := mem_Remove_done;
  Remove_failed := mem_Remove_failed
|}.

#[global] Instance MemStore_dependable : Dependable MemStore.
Proof.
  split; try done.
  intros e s [e' He']. cbn in *. rewrite mem_entries_lookup in He'.
  unfold mem_Update. by destruct (table s !! ID e).
Qed.

(** The store that can be out of reach meets the contract too. *)

Lemma offline_Set_done ev (s : OfflineStore) :
  (Set_ ev s).1 = None →
  ∃ k, mem_entries (backing s) !! k = None ∧
       mem_entries (backing (Set_ ev s).2)
       = <[k := admitted k ev]> (mem_entries (backing s)).
Proof. cbn. unfold writing. destruct (offline s); [done|]. apply mem_Set_done. Qed.

Lemma offline_Set_failed ev (s : OfflineStore) :
  (Set_ ev s).1 ≠ None →
  mem_entries (backing (Set_ ev s).2) = mem_entries (backing s).
Proof. cbn. unfold writing. by destruct (offline s). Qed.

Lemma offline_Update_done e (s : OfflineStore) :
  (Update e s).1 = None →
  is_Some (mem_entries (backing s) !! ID e) ∧
  mem_entries (backing (Update e s).2) = <[ID e := e]> (mem_entries (backing s)).
Proof.
  cbn. unfold writing. destruct (offline s); [done|]. apply mem_Update_done.
Qed.

Lemma offline_Update_failed e (s : OfflineStore) :
  (Update e s).1 ≠ None →
  mem_entries (backing (Update e s).2) = mem_entries (backing s).
Proof.
  cbn. unfold writing. destruct (offline s); [done|]. apply mem_Update_failed.
Qed.

Lemma offline_Remove_done e (s : OfflineStore) :
  (Remove e s).1 = None →
  mem_entries (backing (Remove e s).2) = delete (ID e) (mem_entries (backing s)).
Proof.
  cbn. unfold writing. destruct (offline s); [done|]. apply mem_Remove_done.
Qed.

Lemma offline_Remove_failed e (s : OfflineStore) :
  (Remove e s).1 ≠ None →
  mem_entries (backing (Remove e s).2) = mem_entries (backing s).
Proof. cbn. unfold writing. by destruct (offline s). Qed.

#[global] Instance OfflineStore_contract : StoreContract OfflineStore := {|
  entries s := mem_entries (backing s);
  entries_ID s := mem_entries_ID (backing s);
  Count_entries s := mem_Count_entries (backing s);
  GetAll_entries s := mem_GetAll_entries (backing s);
  Set_done := offline_Set_done;
  Set_failed := offline_Set_failed;
  Update_done := offline_Update_done;
  Update_failed := offline_Update_failed;
  Remove_done := offline_Remove_done;
  Remove_failed := offline_Remove_failed
|}.

(** ** The statements at sample inputs *)

Lemma sendFailed_retry_policy_witness :
  exhausted Sample.per_event (mark_attempt (Sample.stored 0 x01 2) 100) = true
  ↔ 0 < 2 ∧ 2 < 2 + 1.
Proof.
  apply (sendFailed_retry_policy Sample.per_event (Sample.stored 0 x01 2) None
           (Sample.client (Sample.holding [Sample.stored 0 x01 2])
              (λ _ _, Sample.rejected))).
  unfold int_min, int_max. cbn. lia.
Defined.

Lemma New_within_budget o net now : within_budget o (store (New net now)).
Proof. intros k e Hk. cbn in Hk. by rewrite mem_entries_lookup in Hk. Qed.

(** One event, every send of which is answered 500, with [MaxRetries = 2]:
    the third flush removes it. *)
Lemma attempts_within_budget_witness :
  ∃ y, play Sample.per_event Sample.three_failures
         (started (New (λ _ _, Sample.rejected) 0) 1) = Next y
       ∧ within_budget Sample.per_event (store (machine y))
       ∧ length (sent (machine y)) = 3%nat
       ∧ Count (store (machine y)) = 0.
Proof.
  eexists. split; [vm_compute; reflexivity|]. split; [|split; reflexivity].
  apply (proj1 (attempts_within_budget Sample.per_event eq_refl)
           Sample.three_failures
           (started (New (λ _ _, Sample.rejected) 0) 1)).
  - apply (New_within_budget Sample.per_event (λ _ _, Sample.rejected) 0).
  - vm_compute. reflexivity.
Defined.

(** A failed batch of two: the event that had used its two attempts is
    dropped, the other one is kept with one attempt. *)
Lemma emitBulk_all_or_nothing_witness :
  ∃ t', emitBulk Sample.in_bulk
          (Sample.client
             (Sample.holding [Sample.stored 0 x01 2; Sample.stored 1 x02 0])
             (λ _ _, Sample.rejected)) = Ret (0, None) t'
        ∧ sent t' = [batch [Sample.stored 1 x02 0; Sample.stored 0 x01 2]]
        ∧ entries (store t') !! 0%N = None
        ∧ entries (store t') !! 1%N
          = Some (mark_attempt (Sample.stored 1 x02 0) 107).
Proof.
  destruct (proj2 (emitBulk_all_or_nothing Sample.in_bulk
              (Sample.client
                 (Sample.holding [Sample.stored 0 x01 2; Sample.stored 1 x02 0])
                 (λ _ _, Sample.rejected))
              (or_introl (mk_is_Some _ _ eq_refl))))
    as (t' & E & Hsent & _ & Hfail).
  exists t'. split; [exact E|]. split; [exact Hsent|].
  split.
  - apply (proj1 (Hfail eq_refl (Sample.stored 0 x01 2)
                    ltac:(vm_compute; right; left))).
  - apply (proj1 (Hfail eq_refl (Sample.stored 1 x02 0)
                    ltac:(vm_compute; left))).
Defined.

Lemma flaky_answers {S} (s : S) : answers (Sample.client s Sample.flaky).
Proof. intros [|[|[|n]]] r; by eexists. Qed.

(** Three events sent one by one, the first and the third of which are
    accepted: [emit] returns 2. *)
Lemma emit_returns_deliveries_witness :
  ∃ t', emit Sample.per_event
          (Sample.client
             (Sample.holding [Sample.stored 0 x01 2; Sample.stored 1 x02 0;
                              Sample.stored 2 x03 1])
             Sample.flaky) = Ret (2, None) t'
        ∧ entries (store t') !! 2%N = None.
Proof.
  assert (Count (Sample.holding [Sample.stored 0 x01 2; Sample.stored 1 x02 0;
                                 Sample.stored 2 x03 1]) ≠ 0) as Hc.
  { vm_compute. discriminate. }
  destruct (proj1 (proj2 (emit_returns_deliveries Sample.per_event
              (Sample.client
                 (Sample.holding [Sample.stored 0 x01 2; Sample.stored 1 x02 0;
                                  Sample.stored 2 x03 1])
                 Sample.flaky)))
              Hc eq_refl (flaky_answers _))
    as (t' & E & Hgone).
  exists t'. split; [exact E|].
  apply (Hgone 0%nat (Sample.stored 2 x03 1) eq_refl eq_refl).
Defined.

Lemma invalid_event_discarded_witness :
  run_iteration Sample.per_event FromQ
    (set_q [Sample.malformed; Sample.ev x01]
       (Sample.client NewMemStore (λ _ _, Sample.accepted)))
  = Some (Ret NextIteration
            (add_log LogValidation
               (set_q [Sample.ev x01]
                  (Sample.client NewMemStore (λ _ _, Sample.accepted))))).
Proof.
  apply (invalid_event_discarded Sample.per_event Sample.malformed
           [Sample.ev x01]
           (set_q [Sample.malformed; Sample.ev x01]
              (Sample.client NewMemStore (λ _ _, Sample.accepted))));
    reflexivity.
Defined.

(** A store out of reach: the queued event is dropped, and the stored event
    whose send failed stays as it was. *)
Lemma store_failure_skips_witness :
  (∃ t', run_iteration Sample.unlimited FromQ
           (set_q [Sample.ev x01]
              (Sample.client
                 {| backing := Sample.holding [Sample.stored 0 x02 1];
                    offline := true |}
                 (λ _ _, Sample.rejected)))
         = Some (Ret NextIteration t')
         ∧ entries (store t') !! 0%N = Some (Sample.stored 0 x02 1)
         ∧ size (entries (store t')) = 1%nat
         ∧ sent t' = [])
  ∧ (∃ t', emitBulk_event Sample.unlimited true (Sample.stored 0 x02 1) 0
             (Sample.client
                {| backing := Sample.holding [Sample.stored 0 x02 1];
                   offline := true |}
                (λ _ _, Sample.rejected))
           = Ret 0 t'
           ∧ entries (store t') !! 0%N = Some (Sample.stored 0 x02 1)).
Proof.
  pose proof (store_failure_skips Sample.unlimited
                (set_q [Sample.ev x01]
                   (Sample.client
                      {| backing := Sample.holding [Sample.stored 0 x02 1];
                         offline := true |}
                      (λ _ _, Sample.rejected)))) as [Hset _].
  pose proof (store_failure_skips Sample.unlimited
                (Sample.client
                   {| backing := Sample.holding [Sample.stored 0 x02 1];
                      offline := true |}
                   (λ _ _, Sample.rejected))) as [_ Hupdate].
  split.
  - destruct (Hset (Sample.ev x01) [] unavailable) as (t' & E & _ & Hent & _ & Hsent & _);
      [reflexivity .. |].
    exists t'. split; [exact E|]. rewrite Hent. split; [|split; [|exact Hsent]].
    + vm_compute. reflexivity.
    + vm_compute. reflexivity.
  - destruct (Hupdate (Sample.stored 0 x02 1) unavailable) as (_ & Hbulk & _);
      [reflexivity .. |].
    destruct (Hbulk 0) as (t' & E & _ & Hent & _).
    exists t'. split; [exact E|]. rewrite Hent. vm_compute. reflexivity.
Defined.

Lemma emit_empty_store_witness :
  emit Sample.per_event (New (λ _ _, Sample.accepted) 0)
  = Ret (0, None) (New (λ _ _, Sample.accepted) 0)
  ∧ Flush Sample.per_event (New (λ _ _, Sample.accepted) 0)
    = Ret () (New (λ _ _, Sample.accepted) 0).
Proof.
  apply (emit_empty_store Sample.per_event (New (λ _ _, Sample.accepted) 0)).
  reflexivity.
Defined.

Lemma Close_twice_panics_witness :
  Close Sample.per_event (New (λ _ _, Sample.accepted) 0)
  = Ret () (set_cl true (New (λ _ _, Sample.accepted) 0))
  ∧ Close Sample.per_event (set_cl true (New (λ _ _, Sample.accepted) 0))
    = Panic CloseOfClosedChannel.
Proof.
  split; [reflexivity|].
  apply (proj2 (Close_twice_panics Sample.per_event
                  (New (λ _ _, Sample.accepted) 0))).
  reflexivity.
Defined.

(** [Queue] on a channel with room appends the event to the buffer, which
    is what the move [CallerQueues] does. *)
Lemma Queue_returns {S} evt (t : State S) :
  Queue evt t = Ret () (set_q (q t ++ [evt]) t).
Proof. reflexivity. Qed.

(** With [Debug] on, [emitBulk] reads the status code for its log line
    whatever the error was: a [nil] response makes it panic as well. *)
Lemma emitBulk_debug_nil_response_panics :
  emitBulk Sample.in_bulk_debug
    (Sample.client (Sample.holding [Sample.stored 0 x01 0])
       (λ _ _, Sample.refused))
  = Panic NilDereference.
Proof. vm_compute. reflexivity. Qed.

(** C5.  When the request does not leave the HTTP client, resty hands back a
    [nil] response together with the error; [send] calls [StatusCode] on the
    response before it looks at the error, and panics instead of returning
    the error. *)
Theorem send_transport_failure_panics :
  err Sample.refused = Some (Err "parse collector URL: invalid character")
  ∧ send Sample.per_event [x01]
      (Sample.client NewMemStore (λ _ _, Sample.refused))
    = Panic NilDereference.
Proof. split; reflexivity. Qed.

(** The schedule [Sample.overlap] from a new client: the caller's [Flush]
    and the loop's flush are both under way, and the next step of the
    caller's flush removes an event from the store. *)
Lemma flush_outside_loop_counterexample :
  ¬ one_flush_at_a_time Sample.unlimited
      (started (New (λ _ _, Sample.accepted) 0) 1)
  ∧ ¬ store_owned_by_loop Sample.unlimited
        (started (New (λ _ _, Sample.accepted) 0) 1).
Proof.
  split; intros Hclaim.
  - epose proof (Hclaim Sample.overlap _ eq_refl) as Hle.
    vm_compute in Hle. lia.
  - epose proof (Hclaim Sample.overlap _ (CallerContinues 0) _
                   eq_refl eq_refl eq_refl) as Hsame.
    apply (f_equal Count) in Hsame. vm_compute in Hsame. discriminate.
Qed.

Lemma loop_flushes_one_at_a_time_witness :
  ∃ y, play Sample.unlimited Sample.queue_during_flush
         (started (New (λ _ _, Sample.accepted) 0) 1) = Next y
       ∧ (flushes_in_flight y ≤ 1)%nat
       ∧ move Sample.unlimited (LoopTakes FromTick) y = Stuck.
Proof.
  pose proof (loop_flushes_one_at_a_time (S:=MemStore) Sample.unlimited)
    as (Htakes & _ & _ & Hqueues & _).
  eexists. split; [vm_compute; reflexivity|]. split.
  - apply (Hqueues Sample.queue_during_flush
             (started (New (λ _ _, Sample.accepted) 0) 1)).
    + repeat constructor.
    + repeat constructor.
    + vm_compute. reflexivity.
  - apply Htakes. discriminate.
Defined.

(** ** Further statements at sample inputs *)

Lemma rejected_answers {S} (s : S) :
  answers (Sample.client s (λ _ _, Sample.rejected)).
Proof. intros n r. by eexists. Qed.

Lemma accepted_answers {S} (s : S) :
  answers (Sample.client s (λ _ _, Sample.accepted)).
Proof. intros n r. by eexists. Qed.

Lemma send_classifies_witness :
  ∃ t', send Sample.per_event [x01]
          (Sample.client NewMemStore (λ _ _, Sample.rejected))
        = Ret (Some (ErrStatusCode 500)) t'.
Proof.
  destruct (send_classifies Sample.per_event [x01]
              (Sample.client NewMemStore (λ _ _, Sample.rejected))
              (mk_is_Some _ _ eq_refl))
    as (res & t' & E & _ & Hst & _).
  exists t'. rewrite E. by rewrite (Hst eq_refl).
Defined.

Lemma Flush_returns_witness :
  ∃ t', Flush Sample.per_event
          (Sample.client
             (Sample.holding [Sample.stored 0 x01 0; Sample.stored 1 x02 0])
             Sample.flaky) = Ret () t'
        ∧ length (sent t') = 2%nat.
Proof.
  destruct (Flush_returns Sample.per_event
              (Sample.client
                 (Sample.holding [Sample.stored 0 x01 0; Sample.stored 1 x02 0])
                 Sample.flaky) (flaky_answers _))
    as (t' & E & _ & Hq).
  exists t'. split; [exact E|]. rewrite Hq. reflexivity.
Defined.

Lemma emit_one_request_per_event_witness :
  ∃ t', emit Sample.per_event
          (Sample.client
             (Sample.holding [Sample.stored 0 x01 2; Sample.stored 1 x02 0;
                              Sample.stored 2 x03 1])
             Sample.flaky) = Ret (2, None) t'
        ∧ sent t' = [single (Sample.stored 2 x03 1);
                     single (Sample.stored 1 x02 0);
                     single (Sample.stored 0 x01 2)].
Proof.
  assert (Count (Sample.holding [Sample.stored 0 x01 2; Sample.stored 1 x02 0;
                                 Sample.stored 2 x03 1]) ≠ 0) as Hc.
  { vm_compute. discriminate. }
  destruct (emit_one_request_per_event Sample.per_event
              (Sample.client
                 (Sample.holding [Sample.stored 0 x01 2; Sample.stored 1 x02 0;
                                  Sample.stored 2 x03 1])
                 Sample.flaky)
              Hc eq_refl eq_refl (λ k e _, flaky_answers _ _ _))
    as (t' & E & Hq & _).
  exists t'. split; [exact E|]. rewrite Hq. reflexivity.
Defined.

Lemma emit_panics_on_nil_response_witness :
  Flush Sample.per_event
    (Sample.client
       (Sample.holding [Sample.stored 0 x01 0; Sample.stored 1 x02 0])
       Sample.refuses_second)
  = Panic NilDereference.
Proof.
  assert (Count (Sample.holding [Sample.stored 0 x01 0; Sample.stored 1 x02 0])
          ≠ 0) as Hc.
  { vm_compute. discriminate. }
  apply (proj2 (emit_panics_on_nil_response Sample.per_event
                  (Sample.client
                     (Sample.holding [Sample.stored 0 x01 0;
                                      Sample.stored 1 x02 0])
                     Sample.refuses_second)
                  1 (Sample.stored 0 x01 0) Hc eq_refl eq_refl eq_refl eq_refl)).
Defined.

Lemma emit_snapshot_error_witness :
  Flush Sample.per_event
    (Sample.client {| unread := Sample.holding [Sample.stored 0 x01 0] |}
       (λ _ _, Sample.accepted))
  = Ret ()
      (add_log (LogEmitError unreadable)
         (Sample.client {| unread := Sample.holding [Sample.stored 0 x01 0] |}
            (λ _ _, Sample.accepted))).
Proof.
  assert (Count {| unread := Sample.holding [Sample.stored 0 x01 0] |} ≠ 0)
    as Hc.
  { vm_compute. discriminate. }
  apply (proj2 (emit_snapshot_error Sample.per_event
                  (Sample.client
                     {| unread := Sample.holding [Sample.stored 0 x01 0] |}
                     (λ _ _, Sample.accepted))
                  unreadable Hc eq_refl)).
Defined.

Lemma emitBulk_nil_response_witness :
  (∃ t', emitBulk Sample.in_bulk
           (Sample.client (Sample.holding [Sample.stored 0 x01 0])
              (λ _ _, Sample.refused)) = Ret (0, None) t')
  ∧ emitBulk Sample.in_bulk_debug
      (Sample.client (Sample.holding [Sample.stored 0 x01 0])
         (λ _ _, Sample.refused)) = Panic NilDereference.
Proof.
  pose proof (emitBulk_nil_response Sample.in_bulk
                (Sample.client (Sample.holding [Sample.stored 0 x01 0])
                   (λ _ _, Sample.refused))) as Hquiet.
  pose proof (emitBulk_nil_response Sample.in_bulk_debug
                (Sample.client (Sample.holding [Sample.stored 0 x01 0])
                   (λ _ _, Sample.refused))) as Hdebug.
  split.
  - destruct (proj1 (Hquiet eq_refl eq_refl) eq_refl (mk_is_Some _ _ eq_refl))
      as (t' & E & _).
    by exists t'.
  - apply (proj2 (Hdebug eq_refl eq_refl)). left. reflexivity.
Defined.

Lemma Flush_never_adds_witness :
  ∃ t', Flush Sample.per_event
          (Sample.client
             (Sample.holding [Sample.stored 0 x01 0; Sample.stored 1 x02 0])
             Sample.flaky) = Ret () t'
        ∧ Count (store t') ≤ 2.
Proof.
  destruct (Flush Sample.per_event
              (Sample.client
                 (Sample.holding [Sample.stored 0 x01 0; Sample.stored 1 x02 0])
                 Sample.flaky)) as [[] t'|why] eqn:E.
  - exists t'. split; [reflexivity|].
    apply (proj2 (Flush_never_adds Sample.per_event _ _ E)).
  - vm_compute in E. discriminate.
Defined.

Lemma bulk_flush_entries_witness :
  ∃ t', emit Sample.in_bulk
          (Sample.client
             (Sample.holding [Sample.stored 0 x01 2; Sample.stored 1 x02 0])
             (λ _ _, Sample.rejected)) = Ret (0, None) t'
        ∧ size (entries (store t')) = 1%nat.
Proof.
  assert (Count (Sample.holding [Sample.stored 0 x01 2; Sample.stored 1 x02 0])
          ≠ 0) as Hc.
  { vm_compute. discriminate. }
  destruct (bulk_flush_entries Sample.in_bulk
              (Sample.client
                 (Sample.holding [Sample.stored 0 x01 2; Sample.stored 1 x02 0])
                 (λ _ _, Sample.rejected))
              Hc eq_refl (or_introl (mk_is_Some _ _ eq_refl)))
    as (t' & E & Hent & _).
  exists t'. split; [exact E|]. rewrite Hent. vm_compute. reflexivity.
Defined.

(** A new event, [MaxRetries = 2], a collector that answers 500: after three
    flushes it is gone. *)
Lemma retries_bounded_witness :
  ∃ t', flushes Sample.per_event 3
          (Sample.client (Sample.holding [Sample.stored 0 x01 0])
             (λ _ _, Sample.rejected)) = Ret () t'
        ∧ entries (store t') !! 0%N = None.
Proof.
  assert (entries (Sample.holding [Sample.stored 0 x01 0]) !! 0%N
          = Some (Sample.stored 0 x01 0)) as Hid.
  { vm_compute. reflexivity. }
  destruct (retries_bounded Sample.per_event 3 0%N (Sample.stored 0 x01 0)
              (Sample.client (Sample.holding [Sample.stored 0 x01 0])
                 (λ _ _, Sample.rejected))
              (rejected_answers _) (λ _ _, eq_refl) Hid)
    as (t' & E & Hdrop & _).
  - cbn. lia.
  - unfold int_max. cbn. lia.
  - exists t'. split; [exact E|]. apply Hdrop; [reflexivity | reflexivity | lia].
Defined.

(** With [FlushCount = 3] and two events stored, the third one triggers the
    flush: all three are sent and the store is empty. *)
Lemma threshold_triggers_flush_witness :
  ∃ t', run_iteration Sample.per_event FromQ
          (set_q [Sample.ev x03]
             (Sample.client
                (Sample.holding [Sample.stored 0 x01 0; Sample.stored 1 x02 0])
                (λ _ _, Sample.accepted)))
        = Some (Ret NextIteration t')
        ∧ length (sent t') = 3%nat ∧ Count (store t') = 0.
Proof.
  pose proof (threshold_triggers_flush Sample.per_event (Sample.ev x03) []
                (set_q [Sample.ev x03]
                   (Sample.client
                      (Sample.holding [Sample.stored 0 x01 0;
                                       Sample.stored 1 x02 0])
                      (λ _ _, Sample.accepted)))) as Hthreshold.
  destruct (Hthreshold eq_refl eq_refl eq_refl) as (_ & Hflush & _).
  rewrite Hflush.
  - eexists. split; [vm_compute; reflexivity|]. split; reflexivity.
  - vm_compute. discriminate.
Defined.

Lemma nothing_admitted_after_return_witness :
  ∃ y y', play Sample.unlimited Sample.shutdown
            (started (New (λ _ _, Sample.accepted) 0) 1) = Next y
    ∧ play Sample.unlimited Sample.after_shutdown y = Next y'
    ∧ q (machine y') = [Sample.ev x01]
    ∧ loop y' = Returned
    ∧ q (machine y) `prefix_of` q (machine y')
    ∧ no_new_entries (machine y) (machine y').
Proof.
  eexists _, _. split; [vm_compute; reflexivity|].
  split; [vm_compute; reflexivity|]. split; [reflexivity|].
  apply (nothing_admitted_after_return Sample.unlimited Sample.after_shutdown).
  - reflexivity.
  - vm_compute. reflexivity.
Defined.

Lemma emit_entries_per_event_witness :
  ∃ t', emit Sample.per_event
          (Sample.client
             (Sample.holding [Sample.stored 0 x01 2; Sample.stored 1 x02 0;
                              Sample.stored 2 x03 1])
             Sample.flaky) = Ret (2, None) t'
        ∧ entries (store t') !! 2%N = None
        ∧ ∃ tm, entries (store t') !! 1%N
                = Some (mark_attempt (Sample.stored 1 x02 0) tm).
Proof.
  assert (Count (Sample.holding [Sample.stored 0 x01 2; Sample.stored 1 x02 0;
                                 Sample.stored 2 x03 1]) ≠ 0) as Hc.
  { vm_compute. discriminate. }
  destruct (emit_entries_per_event Sample.per_event
              (Sample.client
                 (Sample.holding [Sample.stored 0 x01 2; Sample.stored 1 x02 0;
                                  Sample.stored 2 x03 1])
                 Sample.flaky)
              Hc eq_refl (flaky_answers _))
    as (t' & E & Hin & _).
  exists t'. split; [exact E|]. split.
  - destruct (Hin 0%nat (Sample.stored 2 x03 1) eq_refl) as (_ & tm & Hk).
    exact Hk.
  - destruct (Hin 1%nat (Sample.stored 1 x02 0) eq_refl) as (_ & tm & Hk).
    exists tm. exact Hk.
Defined.

Lemma confirmed_flush_empties_witness :
  ∃ t', emit Sample.per_event
          (Sample.client
             (Sample.holding [Sample.stored 0 x01 0; Sample.stored 1 x02 1;
                              Sample.stored 2 x03 0])
             (λ _ _, Sample.accepted)) = Ret (3, None) t'
        ∧ Count (store t') = 0.
Proof.
  destruct (confirmed_flush_empties Sample.per_event
              (Sample.client
                 (Sample.holding [Sample.stored 0 x01 0; Sample.stored 1 x02 1;
                                  Sample.stored 2 x03 0])
                 (λ _ _, Sample.accepted))
              (accepted_answers _) (λ _ _, eq_refl))
    as (t' & E & _ & Hc).
  exists t'. split; [exact E | exact Hc].
Defined.

Lemma Close_leaves_queue_witness :
  ∃ t', Close Sample.per_event
          (set_q [Sample.ev x09]
             (Sample.client (Sample.holding [Sample.stored 0 x01 0])
                (λ _ _, Sample.accepted))) = Ret () t'
        ∧ cl t' = true ∧ q t' = [Sample.ev x09]
        ∧ length (sent t') = 1%nat.
Proof.
  destruct (Close_leaves_queue Sample.per_event
              (set_q [Sample.ev x09]
                 (Sample.client (Sample.holding [Sample.stored 0 x01 0])
                    (λ _ _, Sample.accepted)))
              eq_refl (accepted_answers _))
    as (t' & E & Hcl & Hq & Hsent & _).
  exists t'. split_and!; [exact E | exact Hcl | exact Hq |].
  rewrite Hsent. reflexivity.
Defined.
